(** * Feature spaces of the taggerflow supertagger ([features.py])

    A shallow embedding of [features.py] and the properties of its
    indexing contract.

    Modelling conventions.
    - Python strings are [string]s of 8-bit characters; [str.lower] and
      [str.split] are the ASCII ones.
    - A [collections.Counter] is an association list in first-insertion
      order (the iteration order of a dict), so that the order of the
      retained vocabulary is the one the list comprehension produces.
    - A [collections.defaultdict] is a finite map together with its
      default factory; a lookup of a missing key stores the default under
      that key, as Python does, so [index] is a state transformer.
    - Exceptions are values of [exn]; fallible code returns a [result].
    - [float(s)] is a parameter of the loader: [None] stands for the
      [ValueError] Python raises on a malformed literal.
    - [ccgbank.START_MARKER] and [ccgbank.END_MARKER] belong to a module
      that is not part of this file; they are parameters. *)

From Stdlib Require Import ZArith QArith Ascii.
From stdpp Require Import gmap strings list fin_maps.

Local Open Scope Z_scope.

(** ** Exceptions and results *)

Inductive exn : Type :=
| IndexError
| KeyError (key : string)
| NotImplementedError
| ValueError_first_not_unknown
    (* "First embedding in the file should represent the unknown word." *)
| ValueError_dimensions_mismatch (expected actual : nat)
    (* "Dimensions mismatch. Expected {} but was {}." *)
| ValueError_float (literal : string).
    (* float() could not convert the string *)

Inductive result (A : Type) : Type :=
| Ok (a : A)
| Raise (e : exn).
Arguments Ok {A} a.
Arguments Raise {A} e.

Definition bind {A B : Type} (r : result A) (k : A → result B) : result B :=
  match r with
  | Ok a => k a
  | Raise e => Raise e
  end.

Notation "'run' x := r 'in' k" := (bind r (λ x, k))
  (at level 10, x name, r at level 100, k at level 200).

(** ** Module constants *)

Definition UNKNOWN_MARKER : string := "*UNKNOWN*".
Definition OUT_OF_RANGE_MARKER : string := "*OOR*".

(** ** Python built-ins used by the module *)

(** [l[i]] on a list: a negative index counts from the end. *)
Definition list_getitem {A : Type} (l : list A) (i : Z) : result A :=
  let n := Z.of_nat (length l) in
  let j := if i <? 0 then i + n else i in
  if (0 <=? j) && (j <? n) then
    match l !! Z.to_nat j with
    | Some x => Ok x
    | None => Raise IndexError
    end
  else Raise IndexError.

Definition len (s : string) : Z := Z.of_nat (String.length s).

(** [s[:stop]] and [s[start:]]: negative bounds count from the end, and
    bounds are clipped to the string. *)
Definition clip (s : string) (k : Z) : nat :=
  Z.to_nat (if k <? 0 then Z.max (k + len s) 0 else Z.min k (len s)).

Definition slice_to (s : string) (stop : Z) : string :=
  String.substring 0 (clip s stop) s.

Definition slice_from (s : string) (start : Z) : string :=
  String.substring (clip s start) (String.length s - clip s start) s.

(** [str.lower] on ASCII text. *)
Definition lower_ascii (c : ascii) : ascii :=
  let n := nat_of_ascii c in
  if ((65 <=? n) && (n <=? 90))%nat then ascii_of_nat (n + 32) else c.

Fixpoint lower (s : string) : string :=
  match s with
  | EmptyString => EmptyString
  | String c s' => String (lower_ascii c) (lower s')
  end.

(** [str.split()] with no separator: maximal runs of non-whitespace. *)
Definition isspace (c : ascii) : bool :=
  let n := nat_of_ascii c in
  (((9 <=? n) && (n <=? 13)) || ((28 <=? n) && (n <=? 32)))%nat.

Fixpoint split_from (cur : option string) (s : string) : list string :=
  match s with
  | EmptyString =>
      match cur with
      | Some w => [w]
      | None => []
      end
  | String c s' =>
      if isspace c then
        match cur with
        | Some w => w :: split_from None s'
        | None => split_from None s'
        end
      else
        split_from
          (Some (match cur with
                 | Some w => w +:+ String c EmptyString
                 | None => String c EmptyString
                 end)) s'
  end.

Definition split (line : string) : list string := split_from None line.

(** [enumerate(l)] *)
Fixpoint enumerate_from {A : Type} (i : nat) (l : list A) : list (nat * A) :=
  match l with
  | [] => []
  | x :: l' => (i, x) :: enumerate_from (S i) l'
  end.

Definition enumerate {A : Type} (l : list A) : list (nat * A) :=
  enumerate_from 0 l.

(** [{f: i for i, f in enumerate(space)}]: keys are stored in order, a
    later entry for the same key replaces the earlier one. *)
Definition dict_of_enumerate (space : list string) : gmap string Z :=
  foldl (λ d p, <[p.2 := Z.of_nat p.1]> d) ∅ (enumerate space).

(** *** [collections.Counter] *)

Fixpoint counter_incr (f : string) (counts : list (string * nat))
  : list (string * nat) :=
  match counts with
  | [] => [(f, 1%nat)]
  | (g, c) :: rest =>
      if decide (f = g) then (g, S c) :: rest
      else (g, c) :: counter_incr f rest
  end.

Definition Counter (xs : list string) : list (string * nat) :=
  foldl (λ counts f, counter_incr f counts) [] xs.

(** [counts[f]]: zero for a missing key (and nothing is stored). *)
Fixpoint counter_get (counts : list (string * nat)) (f : string) : nat :=
  match counts with
  | [] => 0%nat
  | (g, c) :: rest => if decide (f = g) then c else counter_get rest f
  end.

(** *** [collections.defaultdict] *)

Record defaultdict : Type := mkDefaultdict {
  default_factory : option Z;
  items : gmap string Z
}.

(** [d[k]]: a missing key calls [__missing__], which stores and returns
    the factory's value, or raises [KeyError] when there is no factory. *)
Definition defaultdict_getitem (d : defaultdict) (k : string)
  : result (Z * defaultdict) :=
  match items d !! k with
  | Some v => Ok (v, d)
  | None =>
      match default_factory d with
      | Some v => Ok (v, mkDefaultdict (default_factory d) (<[k := v]> (items d)))
      | None => Raise (KeyError k)
      end
  end.

(** ** [class FeatureSpace] *)

Record FeatureSpace : Type := mkFeatureSpace {
  space : list string;
  default_index : option Z;   (* [None]: the attribute was never set *)
  ispace : defaultdict
}.

(** [min_count is None or counts[f] >= min_count] *)
Definition meets (min_count : option Z) (counts : list (string * nat))
  (f : string) : bool :=
  match min_count with
  | None => true
  | Some m => m <=? Z.of_nat (counter_get counts f)
  end.

(** [[f for f in counts if min_count is None or counts[f] >= min_count]] *)
Definition retained (min_count : option Z) (counts : list (string * nat))
  : list string :=
  List.filter (meets min_count counts) (map fst counts).

(** [FeatureSpace.__init__], given the values [self.extract(sentences)]
    yields. *)
Definition FeatureSpace_init (extracted : list string)
  (min_count : option Z) (append_unknown : bool) : FeatureSpace :=
  let counts := Counter extracted in
  let space0 := retained min_count counts in
  let default := if append_unknown then Z.of_nat (length space0) else -1 in
  mkFeatureSpace
    (if append_unknown then space0 ++ [UNKNOWN_MARKER] else space0)
    (Some default)
    (mkDefaultdict (Some default) (dict_of_enumerate space0)).

(** The methods thread [self]: [index] may store a key in [ispace]. *)
Definition index (f : string) (self : FeatureSpace)
  : result (Z * FeatureSpace) :=
  run r := defaultdict_getitem (ispace self) f in
  Ok (r.1, mkFeatureSpace (space self) (default_index self) r.2).

Definition feature (i : Z) (self : FeatureSpace) : result string :=
  list_getitem (space self) i.

Definition size (self : FeatureSpace) : Z :=
  Z.of_nat (length (space self)).

(** The space after a sequence of [index] calls (their results dropped). *)
Fixpoint queried (fs : list string) (self : FeatureSpace)
  : result FeatureSpace :=
  match fs with
  | [] => Ok self
  | f :: fs' => run r := index f self in queried fs' r.2
  end.

(** ** The corpus and the extraction policies *)

(** A sentence is a pair (tokens, supertags); a supertag may be [None]. *)
Definition sentence : Type := (list string * list (option string))%type.

(** [FeatureSpace.extract], [EmbeddingSpace.extract_from_token] and
    [EmbeddingSpace.get_embedding_size] of the base classes only raise;
    the subclasses below override them. *)
Definition FeatureSpace_extract (sentences : list sentence)
  : result (list string) :=
  Raise NotImplementedError.

Definition EmbeddingSpace_extract_from_token (token : string)
  : result (option string) :=
  Raise NotImplementedError.

Definition EmbeddingSpace_get_embedding_size : result nat :=
  Raise NotImplementedError.

(** [SupertagSpace.extract]: every supertag that is not [None]. *)
Definition SupertagSpace_extract (sentences : list sentence) : list string :=
  mjoin (map (λ s : sentence, omap id s.2) sentences).

(** [EmbeddingSpace.extract]: the feature of every token, [None] skipped. *)
Definition EmbeddingSpace_extract (extract_from_token : string → option string)
  (sentences : list sentence) : list string :=
  mjoin (map (λ s : sentence, omap extract_from_token s.1) sentences).

(** [SupertagSpace.__init__] *)
Definition SupertagSpace_init (sentences : list sentence)
  (min_count : option Z) : FeatureSpace :=
  FeatureSpace_init (SupertagSpace_extract sentences) min_count false.

(** [EmbeddingSpace.__init__]; [self.embedding_size] is kept beside the
    attributes of the base class. *)
Record EmbeddingSpace : Type := mkEmbeddingSpace {
  base :> FeatureSpace;
  embedding_size : nat
}.

Definition EmbeddingSpace_init (extract_from_token : string → option string)
  (get_embedding_size : nat) (sentences : list sentence)
  (min_count : option Z) : EmbeddingSpace :=
  mkEmbeddingSpace
    (FeatureSpace_init (EmbeddingSpace_extract extract_from_token sentences)
       min_count true)
    get_embedding_size.

Section Affixes.

(** [ccgbank.START_MARKER] and [ccgbank.END_MARKER]. *)
Variables START_MARKER END_MARKER : string.

(** [PrefixSpace.extract_from_token] *)
Definition PrefixSpace_extract_from_token (n : Z) (token : string) : string :=
  if bool_decide (token = START_MARKER) || bool_decide (token = END_MARKER)
  then token
  else if n <=? len token then slice_to token n else OUT_OF_RANGE_MARKER.

(** [SuffixSpace.extract_from_token] *)
Definition SuffixSpace_extract_from_token (n : Z) (token : string) : string :=
  if bool_decide (token = START_MARKER) || bool_decide (token = END_MARKER)
  then token
  else if n <=? len token then slice_from token (- n) else OUT_OF_RANGE_MARKER.

(** [PrefixSpace.__init__] and [SuffixSpace.__init__];
    [get_embedding_size] returns 32. *)
Definition PrefixSpace_init (sentences : list sentence) (n : Z)
  (min_count : option Z) : EmbeddingSpace :=
  EmbeddingSpace_init (λ t, Some (PrefixSpace_extract_from_token n t)) 32
    sentences min_count.

Definition SuffixSpace_init (sentences : list sentence) (n : Z)
  (min_count : option Z) : EmbeddingSpace :=
  EmbeddingSpace_init (λ t, Some (SuffixSpace_extract_from_token n t)) 32
    sentences min_count.

End Affixes.

(** ** [class PretrainedEmbeddingSpace] *)

Section Pretrained.

(** The type of floats and [float(s)]. *)
Variable F : Type.
Variable float : string → option F.

(** [[float(s) for s in splits[1:]]]: the first malformed field raises. *)
Fixpoint floats (fields : list string) : result (list F) :=
  match fields with
  | [] => Ok []
  | s :: rest =>
      match float s with
      | None => Raise (ValueError_float s)
      | Some x => run xs := floats rest in Ok (x :: xs)
      end
  end.

(** The variables of [__init__] while the file is read. *)
Record loading : Type := mkLoading {
  already_added : gset string;
  loading_embedding_size : option nat;
  loading_space : list string;
  loading_embeddings : list (list F)
}.

Definition loading_start : loading := mkLoading ∅ None [] [].

(** The body of the loop, for line number [i]. *)
Definition load_line (i : nat) (line : string) (st : loading)
  : result loading :=
  match split line with
  | [] => Raise IndexError
  | word :: fields =>
      if bool_decide (i = 0%nat) && negb (bool_decide (word = UNKNOWN_MARKER))
      then Raise ValueError_first_not_unknown
      else
        let word := lower word in
        if bool_decide (word ∈ already_added st) then Ok st
        else
          run embedding := floats fields in
          run dimension :=
            match loading_embedding_size st with
            | None => Ok (length embedding)
            | Some d =>
                if bool_decide (d ≠ length embedding)
                then Raise (ValueError_dimensions_mismatch d (length embedding))
                else Ok d
            end in
          Ok (mkLoading ({[word]} ∪ already_added st) (Some dimension)
                (loading_space st ++ [word])
                (loading_embeddings st ++ [embedding]))
  end.

(** [for i, line in enumerate(f.readlines())], from line number [i]. *)
Fixpoint load_lines (i : nat) (lines : list string) (st : loading)
  : result loading :=
  match lines with
  | [] => Ok st
  | line :: rest =>
      run st' := load_line i line st in load_lines (S i) rest st'
  end.

Record PretrainedEmbeddingSpace : Type := mkPretrained {
  pretrained_base :> FeatureSpace;
  pretrained_embedding_size : option nat;
  embeddings : list (list F)
}.

(** [PretrainedEmbeddingSpace.__init__], given [f.readlines()]. The base
    class initialiser is not called, so [default_index] stays unset and the
    default of [ispace] is the constant 0. *)
Definition PretrainedEmbeddingSpace_init (lines : list string)
  : result PretrainedEmbeddingSpace :=
  run st := load_lines 0 lines loading_start in
  Ok (mkPretrained
        (mkFeatureSpace (loading_space st) None
           (mkDefaultdict (Some 0) (dict_of_enumerate (loading_space st))))
        (loading_embedding_size st)
        (loading_embeddings st)).

End Pretrained.

Arguments mkLoading {F}.
Arguments already_added {F}.
Arguments loading_embedding_size {F}.
Arguments loading_space {F}.
Arguments loading_embeddings {F}.
Arguments pretrained_base {F}.
Arguments pretrained_embedding_size {F}.
Arguments embeddings {F}.
Arguments mkPretrained {F}.
Arguments loading_start {F}.
Arguments load_line {F}.
Arguments load_lines {F}.
Arguments PretrainedEmbeddingSpace_init {F}.
Arguments floats {F}.

(** [WordSpace.extract_from_token] *)
Definition WordSpace_extract_from_token (token : string) : string :=
  lower token.

(** A reader of plain decimal literals (an optional minus sign, digits, an
    optional fraction, one digit at least), on which [float] succeeds as
    well; it stands for [float] where a concrete file is read.  The values
    are kept as rationals: the properties below concern how many values a
    line has and which line they come from, not their rounding. *)
Definition digit (c : ascii) : option Z :=
  let n := nat_of_ascii c in
  if ((48 <=? n) && (n <=? 57))%nat then Some (Z.of_nat (n - 48)) else None.

Fixpoint decimal_digits (s : string) (after_point seen_digit : bool)
  (num : Z) (den : positive) : option Q :=
  match s with
  | EmptyString => if seen_digit then Some (Qmake num den) else None
  | String c s' =>
      if bool_decide (c = "."%char) then
        if after_point then None
        else decimal_digits s' true seen_digit num den
      else
        match digit c with
        | None => None
        | Some d =>
            decimal_digits s' after_point true (10 * num + d)
              (if after_point then (10 * den)%positive else den)
        end
  end.

Definition decimal (s : string) : option Q :=
  match s with
  | EmptyString => None
  | String c s' =>
      if bool_decide (c = "-"%char)
      then option_map Qopp (decimal_digits s' false false 0 1)
      else decimal_digits s false false 0 1
  end.

(** * Notions used in the statements *)

(** The number of times [f] occurs in [xs]. *)
Fixpoint occurrences (f : string) (xs : list string) : nat :=
  match xs with
  | [] => 0%nat
  | x :: xs' => ((if decide (x = f) then 1 else 0) + occurrences f xs')%nat
  end.

(** The retained vocabulary of a counted space: the list the comprehension
    of [__init__] builds, before the unknown marker is appended. *)
Definition vocabulary (extracted : list string) (min_count : option Z)
  : list string :=
  retained min_count (Counter extracted).

(** What [d[k]] evaluates to, as a function of the stored items and the
    default factory. *)
Definition resolve (d : defaultdict) (k : string) : option Z :=
  match items d !! k with
  | Some v => Some v
  | None => default_factory d
  end.

(** Two objects that answer every query alike. *)
Definition same_answers (self self' : FeatureSpace) : Prop :=
  space self' = space self
  ∧ default_index self' = default_index self
  ∧ ∀ f, resolve (ispace self') f = resolve (ispace self) f.

(** The state after a line that was recorded. *)
Definition record_line {F : Type} (word : string) (embedding : list F)
  (st : loading F)
  : loading F :=
  mkLoading ({[word]} ∪ already_added st) (Some (length embedding))
    (loading_space st ++ [word]) (loading_embeddings st ++ [embedding]).

(** What holds of the variables of the loop at every iteration. *)
Record well_loaded {F : Type} (st : loading F) : Prop := {
  wl_NoDup : NoDup (loading_space st);
  wl_added : ∀ w, w ∈ already_added st ↔ w ∈ loading_space st;
  wl_length : length (loading_embeddings st) = length (loading_space st);
  wl_dimension :
    ∀ e, e ∈ loading_embeddings st →
         loading_embedding_size st = Some (length e)
}.

(** The line terminator [readlines] keeps at the end of each line. *)
Definition newline : string := String (ascii_of_nat 10) EmptyString.

(** The files the loader accepts: every line has a word, the word of the
    first line is the unknown marker, and every line whose lower-cased
    word is on no earlier line has fields that are all floats, as many as
    the first line has. *)
Definition accepted {F : Type} (float : string → option F)
  (lines : list string) : Prop :=
  ∀ pre line post,
    lines = pre ++ line :: post →
    ∃ word fields,
      split line = word :: fields
      ∧ (pre = [] → word = UNKNOWN_MARKER)
      ∧ ((∃ p w fs, p ∈ pre ∧ split p = w :: fs ∧ lower w = lower word)
         ∨ ((∀ s, s ∈ fields → is_Some (float s))
            ∧ ∀ first rest word0 fields0,
                lines = first :: rest → split first = word0 :: fields0 →
                length fields = length fields0)).

(** The space loaded from the file of C3, written out. *)
Definition dog_space : PretrainedEmbeddingSpace Q :=
  mkPretrained
    (mkFeatureSpace ["*unknown*"; "dog"]%string None
       (mkDefaultdict (Some 0) (dict_of_enumerate ["*unknown*"; "dog"]%string)))
    (Some 2%nat) [[0.1; 0.2]; [0.3; 0.4]]%Q.

(** * Properties *)

(** ** Lists, counters and dictionaries *)

Lemma occurrences_app f xs ys :
  occurrences f (xs ++ ys) = (occurrences f xs + occurrences f ys)%nat.
Proof. induction xs as [|x xs IH]; simpl; [done|]. rewrite IH. lia. Qed.

Lemma occurrences_pos f xs : (0 < occurrences f xs)%nat ↔ f ∈ xs.
Proof.
  induction xs as [|x xs IH]; simpl.
  - split; [lia|]. by intros ?%elem_of_nil.
  - rewrite elem_of_cons. destruct (decide (x = f)) as [->|Hne].
    + split; [by left | lia].
    + rewrite <- IH. split; [tauto|]. intros [->|?]; [congruence | lia].
Qed.

Lemma counter_get_incr f g counts :
  counter_get (counter_incr f counts) g
  = ((if decide (f = g) then 1 else 0) + counter_get counts g)%nat.
Proof.
  induction counts as [|[h c] rest IH]; simpl.
  - destruct (decide (g = f)), (decide (f = g)); simpl; congruence.
  - destruct (decide (f = h)) as [->|Hfh]; simpl.
    + destruct (decide (g = h)), (decide (h = g)); simpl; congruence.
    + destruct (decide (g = h)) as [->|?].
      * by destruct (decide (f = h)).
      * apply IH.
Qed.

Lemma counter_keys_incr f counts :
  map fst (counter_incr f counts)
  = if decide (f ∈ map fst counts) then map fst counts
    else map fst counts ++ [f].
Proof.
  induction counts as [|[h c] rest IH]; simpl.
  - destruct (decide (f ∈ [])) as [H%elem_of_nil|]; done.
  - destruct (decide (f = h)) as [->|Hfh]; simpl.
    + destruct (decide (h ∈ h :: map fst rest)) as [|Hn]; [done|].
      exfalso. apply Hn. by left.
    + rewrite IH.
      destruct (decide (f ∈ map fst rest)) as [Hin|Hin];
        destruct (decide (f ∈ h :: map fst rest)) as [Hin'|Hin']; try done.
      * exfalso. apply Hin'. by right.
      * apply elem_of_cons in Hin' as [?|?]; done.
Qed.

Lemma Counter_snoc xs x : Counter (xs ++ [x]) = counter_incr x (Counter xs).
Proof. unfold Counter. by rewrite foldl_snoc. Qed.

Lemma Counter_get xs f : counter_get (Counter xs) f = occurrences f xs.
Proof.
  induction xs as [|x xs IH] using rev_ind; [done|].
  rewrite Counter_snoc, counter_get_incr, occurrences_app, IH. simpl. lia.
Qed.

Lemma Counter_keys xs f : f ∈ map fst (Counter xs) ↔ f ∈ xs.
Proof.
  induction xs as [|x xs IH] using rev_ind; [done|].
  rewrite Counter_snoc, counter_keys_incr, elem_of_app, list_elem_of_singleton.
  destruct (decide (x ∈ map fst (Counter xs))) as [Hin|Hin].
  - rewrite IH. split; [tauto|]. intros [?| ->]; [done|]. by apply IH.
  - rewrite elem_of_app, list_elem_of_singleton, IH. tauto.
Qed.

Lemma Counter_keys_NoDup xs : NoDup (map fst (Counter xs)).
Proof.
  induction xs as [|x xs IH] using rev_ind; [constructor|].
  rewrite Counter_snoc, counter_keys_incr.
  destruct (decide (x ∈ map fst (Counter xs))) as [Hin|Hin]; [done|].
  apply NoDup_app. split_and!; [done| |apply NoDup_singleton].
  intros y Hy ->%list_elem_of_singleton. done.
Qed.

(** The dictionary built from [enumerate]: keys outside the list are
    untouched, and a list without repetition maps each value to its
    position. *)
Lemma dict_enumerate_notin (l : list string) (k : nat) (d : gmap string Z) f :
  f ∉ l →
  foldl (λ d p, <[p.2 := Z.of_nat p.1]> d) d (enumerate_from k l) !! f = d !! f.
Proof.
  revert k d. induction l as [|x l IH]; intros k d Hf; simpl; [done|].
  apply not_elem_of_cons in Hf as [Hne Hf].
  rewrite IH by done. by rewrite lookup_insert_ne.
Qed.

Lemma dict_enumerate_lookup (l : list string) (k : nat) (d : gmap string Z) f n :
  NoDup l → l !! n = Some f →
  foldl (λ d p, <[p.2 := Z.of_nat p.1]> d) d (enumerate_from k l) !! f
  = Some (Z.of_nat (k + n)).
Proof.
  revert k d n. induction l as [|x l IH]; intros k d n Hnd Hn; [done|].
  apply NoDup_cons in Hnd as [Hx Hnd]. destruct n as [|n]; simpl in *.
  - injection Hn as ->. rewrite dict_enumerate_notin by done. simpl.
    rewrite lookup_insert_eq. do 2 f_equal. lia.
  - rewrite (IH (S k) _ n) by done. do 2 f_equal. lia.
Qed.

Lemma dict_of_enumerate_Some (l : list string) f n :
  NoDup l → l !! n = Some f → dict_of_enumerate l !! f = Some (Z.of_nat n).
Proof. intros. unfold dict_of_enumerate, enumerate. by erewrite dict_enumerate_lookup. Qed.

Lemma dict_of_enumerate_None (l : list string) f :
  f ∉ l → dict_of_enumerate l !! f = None.
Proof. intros. unfold dict_of_enumerate, enumerate. by rewrite dict_enumerate_notin. Qed.

(** [l[i]] *)
Lemma list_getitem_nonneg {A} (l : list A) (n : nat) x :
  l !! n = Some x → list_getitem l (Z.of_nat n) = Ok x.
Proof.
  intros Hn. pose proof (lookup_lt_Some _ _ _ Hn) as Hlt. unfold list_getitem.
  destruct (Z.ltb_spec (Z.of_nat n) 0); [lia|].
  destruct (Z.leb_spec 0 (Z.of_nat n)); [|lia].
  destruct (Z.ltb_spec (Z.of_nat n) (Z.of_nat (length l))); [|lia]. simpl.
  by rewrite Nat2Z.id, Hn.
Qed.

Lemma list_getitem_negative {A} (l : list A) (i : Z) :
  - Z.of_nat (length l) ≤ i < 0 →
  ∃ x, l !! Z.to_nat (Z.of_nat (length l) + i) = Some x ∧ list_getitem l i = Ok x.
Proof.
  intros Hi. destruct (lookup_lt_is_Some_2 l (Z.to_nat (Z.of_nat (length l) + i)))
    as [x Hx]; [lia|].
  exists x. split; [done|]. unfold list_getitem.
  destruct (Z.ltb_spec i 0); [|lia].
  destruct (Z.leb_spec 0 (i + Z.of_nat (length l))); [|lia].
  destruct (Z.ltb_spec (i + Z.of_nat (length l)) (Z.of_nat (length l))); [|lia].
  simpl. by rewrite Z.add_comm, Hx.
Qed.

Lemma list_getitem_raises {A} (l : list A) (i : Z) e :
  list_getitem l i = Raise e ↔
  e = IndexError ∧ ¬ (- Z.of_nat (length l) ≤ i < Z.of_nat (length l)).
Proof.
  split.
  - intros Hr. destruct (decide (0 ≤ i)) as [Hi|Hi].
    + destruct (decide (i < Z.of_nat (length l))) as [Hlt|Hge].
      * destruct (lookup_lt_is_Some_2 l (Z.to_nat i)) as [x Hx]; [lia|].
        rewrite <- (Z2Nat.id i), (list_getitem_nonneg _ _ _ Hx) in Hr by done.
        discriminate.
      * revert Hr. unfold list_getitem.
        destruct (Z.ltb_spec i 0); [lia|].
        destruct (Z.ltb_spec i (Z.of_nat (length l))); [lia|].
        rewrite andb_false_r. intros [= <-]. split; [done | lia].
    + destruct (decide (- Z.of_nat (length l) ≤ i)) as [Hge|Hlt].
      * destruct (list_getitem_negative l i) as (x & _ & Hx); [lia|]. congruence.
      * revert Hr. unfold list_getitem.
        destruct (Z.ltb_spec i 0); [|lia].
        destruct (Z.leb_spec 0 (i + Z.of_nat (length l))); [lia|].
        simpl. intros [= <-]. split; [done | lia].
  - intros [-> Hout]. destruct (list_getitem l i) as [x|e] eqn:Hg.
    + exfalso. apply Hout. revert Hg. unfold list_getitem.
      destruct (Z.ltb_spec i 0);
        repeat match goal with
               | |- context [?a <=? ?b] => destruct (Z.leb_spec a b)
               | |- context [?a <? ?b] => destruct (Z.ltb_spec a b)
               end; simpl; try discriminate; lia.
    + revert Hg. unfold list_getitem.
      destruct ((0 <=? _) && _); [|congruence].
      destruct (l !! _); congruence.
Qed.

(** ** Lookups through the default dictionary *)

Lemma defaultdict_getitem_resolve d k v :
  resolve d k = Some v →
  ∃ d', defaultdict_getitem d k = Ok (v, d')
        ∧ default_factory d' = default_factory d
        ∧ ∀ k', resolve d' k' = resolve d k'.
Proof.
  unfold resolve, defaultdict_getitem. destruct (items d !! k) as [w|] eqn:Hk.
  - intros [= ->]. by exists d.
  - intros Hd. rewrite Hd. eexists. split; [done|]. split; [done|].
    intros k'. simpl. destruct (decide (k = k')) as [<-|Hne].
    + by rewrite lookup_insert_eq, Hk.
    + by rewrite lookup_insert_ne.
Qed.

Lemma same_answers_refl self : same_answers self self.
Proof. by repeat split. Qed.

Lemma same_answers_trans a b c :
  same_answers a b → same_answers b c → same_answers a c.
Proof.
  intros (Hs1 & Hd1 & Hab) (Hs2 & Hd2 & Hbc). unfold same_answers.
  split_and!; [congruence | congruence |]. intros f. by rewrite Hbc, Hab.
Qed.

Lemma index_resolve self f v :
  resolve (ispace self) f = Some v →
  ∃ self', index f self = Ok (v, self') ∧ same_answers self self'.
Proof.
  intros Hv. destruct (defaultdict_getitem_resolve _ _ _ Hv) as (d' & Hd & _ & Hres).
  unfold index. rewrite Hd. simpl. eexists. split; [done|]. by repeat split.
Qed.

Lemma queried_same_answers fs self :
  (∀ f, is_Some (resolve (ispace self) f)) →
  ∃ self', queried fs self = Ok self' ∧ same_answers self self'.
Proof.
  revert self. induction fs as [|f fs IH]; intros self Htotal; simpl.
  - exists self. split; [done | apply same_answers_refl].
  - destruct (Htotal f) as [v Hv].
    destruct (index_resolve _ _ _ Hv) as (self1 & -> & H1). simpl.
    destruct (IH self1) as (self2 & -> & H2).
    + intros g. destruct H1 as (_ & _ & ->). apply Htotal.
    + exists self2. split; [done|]. by eapply same_answers_trans.
Qed.

Lemma index_after_queries fs self f v :
  (∀ g, is_Some (resolve (ispace self) g)) →
  resolve (ispace self) f = Some v →
  ∃ self', queried fs self = Ok self' ∧ same_answers self self'
           ∧ ∃ self'', index f self' = Ok (v, self'') ∧ same_answers self self''.
Proof.
  intros Htotal Hv. destruct (queried_same_answers fs self Htotal) as (self' & Hq & Hs).
  exists self'. split; [done|]. split; [done|].
  destruct (index_resolve self' f v) as (self'' & Hi & Hs').
  - destruct Hs as (_ & _ & ->). done.
  - exists self''. split; [done|]. by eapply same_answers_trans.
Qed.

(** ** The retained vocabulary of a counted space *)

Lemma vocabulary_NoDup extracted min_count :
  NoDup (vocabulary extracted min_count).
Proof.
  unfold vocabulary, retained. apply NoDup_ListNoDup, List.NoDup_filter.
  apply NoDup_ListNoDup, Counter_keys_NoDup.
Qed.

Lemma elem_of_vocabulary extracted min_count f :
  f ∈ vocabulary extracted min_count ↔
  f ∈ extracted ∧ ∀ m, min_count = Some m → m ≤ Z.of_nat (occurrences f extracted).
Proof.
  unfold vocabulary, retained.
  rewrite list_elem_of_In, List.filter_In, <- list_elem_of_In, Counter_keys.
  unfold meets. rewrite Counter_get. destruct min_count as [m|].
  - rewrite Z.leb_le. split.
    + intros [? ?]. split; [done|]. by intros ? [= <-].
    + intros [? Hm]. split; [done|]. by apply Hm.
  - split; [|tauto]. intros [? _]. split; [done|]. discriminate.
Qed.

Lemma FeatureSpace_init_space extracted min_count append_unknown :
  space (FeatureSpace_init extracted min_count append_unknown)
  = vocabulary extracted min_count
    ++ (if append_unknown then [UNKNOWN_MARKER] else []).
Proof. unfold FeatureSpace_init. destruct append_unknown; simpl; by rewrite ?app_nil_r. Qed.

Lemma FeatureSpace_init_default extracted min_count append_unknown :
  default_index (FeatureSpace_init extracted min_count append_unknown)
  = Some (if append_unknown
          then Z.of_nat (length (vocabulary extracted min_count)) else -1).
Proof. done. Qed.

Lemma FeatureSpace_init_resolve extracted min_count append_unknown f :
  resolve (ispace (FeatureSpace_init extracted min_count append_unknown)) f
  = match dict_of_enumerate (vocabulary extracted min_count) !! f with
    | Some i => Some i
    | None => default_index (FeatureSpace_init extracted min_count append_unknown)
    end.
Proof. done. Qed.

Lemma FeatureSpace_init_total extracted min_count append_unknown f :
  is_Some (resolve (ispace (FeatureSpace_init extracted min_count append_unknown)) f).
Proof. rewrite FeatureSpace_init_resolve. by destruct (_ !! f). Qed.

Lemma FeatureSpace_init_known extracted min_count append_unknown f n :
  vocabulary extracted min_count !! n = Some f →
  resolve (ispace (FeatureSpace_init extracted min_count append_unknown)) f
  = Some (Z.of_nat n).
Proof.
  intros Hn. rewrite FeatureSpace_init_resolve.
  by rewrite (dict_of_enumerate_Some _ _ n (vocabulary_NoDup _ _) Hn).
Qed.

Lemma FeatureSpace_init_unknown extracted min_count append_unknown f :
  f ∉ vocabulary extracted min_count →
  resolve (ispace (FeatureSpace_init extracted min_count append_unknown)) f
  = default_index (FeatureSpace_init extracted min_count append_unknown).
Proof.
  intros Hf. rewrite FeatureSpace_init_resolve. by rewrite dict_of_enumerate_None.
Qed.

(** ** Counted spaces *)

(** C2. In a counted space built with the fallback slot, at construction
    and after any sequence of lookups, [feature(index(v)) == v] for every
    retained value [v], and [index(u) == size() - 1] for every value [u]
    that was not retained. *)
Theorem fallback_space_round_trip extracted min_count fs :
  ∃ self,
    queried fs (FeatureSpace_init extracted min_count true) = Ok self
    ∧ (∀ v, v ∈ vocabulary extracted min_count →
         ∃ i self', index v self = Ok (i, self') ∧ feature i self' = Ok v)
    ∧ (∀ u, u ∉ vocabulary extracted min_count →
         ∃ self', index u self = Ok (size self - 1, self')).
Proof.
  set (init := FeatureSpace_init extracted min_count true).
  destruct (queried_same_answers fs init) as (self & Hq & Hspace & Hdef & Hres).
  { apply FeatureSpace_init_total. }
  exists self. split; [done|]. split.
  - intros v [n Hn]%list_elem_of_lookup.
    destruct (index_resolve self v (Z.of_nat n)) as (self' & Hi & Hs' & _).
    { rewrite Hres. by apply FeatureSpace_init_known. }
    exists (Z.of_nat n), self'. split; [done|].
    unfold feature. rewrite Hs', Hspace. apply list_getitem_nonneg.
    subst init. rewrite FeatureSpace_init_space. by apply lookup_app_l_Some.
  - intros u Hu.
    destruct (index_resolve self u (size self - 1)) as (self' & Hi & _); [|eauto].
    rewrite Hres. subst init. rewrite FeatureSpace_init_unknown by done.
    rewrite FeatureSpace_init_default. f_equal. unfold size.
    rewrite Hspace, FeatureSpace_init_space, length_app. simpl. lia.
Qed.

(** C4. The retained vocabulary of a counted space consists of the
    distinct extracted values whose number of occurrences reaches the
    minimum count (all of them when there is none), each once; the space is
    that vocabulary followed by the unknown marker when the fallback is
    reserved, so [size()] is its length plus one exactly in that case.  With
    counts A:5, B:1, C:3 and threshold 3 the vocabulary is A and C, and B
    resolves to the default index. *)
Theorem counted_space_vocabulary extracted min_count append_unknown :
  let self := FeatureSpace_init extracted min_count append_unknown in
  (∀ f, f ∈ vocabulary extracted min_count ↔
        f ∈ extracted
        ∧ ∀ m, min_count = Some m → m ≤ Z.of_nat (occurrences f extracted))
  ∧ NoDup (vocabulary extracted min_count)
  ∧ space self = vocabulary extracted min_count
                 ++ (if append_unknown then [UNKNOWN_MARKER] else [])
  ∧ size self = Z.of_nat (length (vocabulary extracted min_count))
                + (if append_unknown then 1 else 0)
  ∧ ((∀ f, occurrences f extracted
           = if decide (f = "A"%string) then 5%nat
             else if decide (f = "B"%string) then 1%nat
             else if decide (f = "C"%string) then 3%nat else 0%nat) →
     min_count = Some 3 →
     (∀ f, f ∈ vocabulary extracted min_count ↔ f = "A"%string ∨ f = "C"%string)
     ∧ size self = 2 + (if append_unknown then 1 else 0)
     ∧ ∃ i self', index "B" self = Ok (i, self')
                  ∧ default_index self = Some i
                  ∧ i = if append_unknown then 2 else -1).
Proof.
  intros self.
  assert (Hsize : size self = Z.of_nat (length (vocabulary extracted min_count))
                              + (if append_unknown then 1 else 0)).
  { unfold size. subst self. rewrite FeatureSpace_init_space, length_app.
    destruct append_unknown; simpl; lia. }
  split_and!.
  - apply elem_of_vocabulary.
  - apply vocabulary_NoDup.
  - apply FeatureSpace_init_space.
  - done.
  - intros Hcounts ->.
    assert (Hvoc : ∀ f, f ∈ vocabulary extracted (Some 3)
                        ↔ f = "A"%string ∨ f = "C"%string).
    { intros f. rewrite elem_of_vocabulary, <- occurrences_pos, Hcounts. split.
      - intros [_ Hm]. specialize (Hm 3 eq_refl). revert Hm.
        repeat case_decide; subst; auto; lia.
      - intros [-> | ->]; simpl; (split; [lia|]); by intros ? [= <-]. }
    assert (Hlen : length (vocabulary extracted (Some 3)) = 2%nat).
    { assert (Hperm : vocabulary extracted (Some 3) ≡ₚ ["A"; "C"]%string).
      { apply NoDup_Permutation; [apply vocabulary_NoDup | |].
        - apply NoDup_cons. split; [|apply NoDup_singleton].
          by intros ?%list_elem_of_singleton.
        - intros f. rewrite Hvoc, !elem_of_cons, elem_of_nil. tauto. }
      by rewrite Hperm. }
    split_and!; [done | lia |].
    destruct (index_resolve self "B"
                (if append_unknown then 2 else -1)) as (self' & Hi & _).
    { subst self. rewrite FeatureSpace_init_unknown.
      - rewrite FeatureSpace_init_default, Hlen. by destruct append_unknown.
      - rewrite Hvoc. intros [?|?]; discriminate. }
    eexists _, self'. split_and!; [done | | done].
    subst self. rewrite FeatureSpace_init_default, Hlen. by destruct append_unknown.
Qed.

(** The occurrence counts of the example of C4 are those of a corpus. *)
Lemma counted_space_vocabulary_witness :
  let extracted := ["A"; "B"; "C"; "A"; "C"; "A"; "C"; "A"; "A"]%string in
  (∀ f, f ∈ vocabulary extracted (Some 3) ↔ f = "A"%string ∨ f = "C"%string)
  ∧ size (FeatureSpace_init extracted (Some 3) true) = 2 + 1
  ∧ ∃ i self', index "B" (FeatureSpace_init extracted (Some 3) true) = Ok (i, self')
               ∧ default_index (FeatureSpace_init extracted (Some 3) true) = Some i
               ∧ i = 2.
Proof.
  intros extracted.
  apply (counted_space_vocabulary extracted (Some 3) true); [|reflexivity].
  intros f. unfold extracted. simpl. repeat case_decide; subst; done.
Defined.

(** C7, as the code has it. [feature(i)] raises [IndexError] exactly when
    [i] lies outside [[-size(), size())]; for [0 <= i < size()] it returns
    the value stored at position [i], and for [-size() <= i < 0] the value
    stored at position [size() + i]. *)
Theorem feature_bounds (self : FeatureSpace) (i : Z) :
  (∀ e, feature i self = Raise e ↔
        e = IndexError ∧ ¬ (- size self ≤ i < size self))
  ∧ (0 ≤ i < size self →
     ∃ v, space self !! Z.to_nat i = Some v ∧ feature i self = Ok v)
  ∧ (- size self ≤ i < 0 →
     ∃ v, space self !! Z.to_nat (size self + i) = Some v
          ∧ feature i self = Ok v).
Proof.
  unfold feature, size. split_and!.
  - intros e. apply list_getitem_raises.
  - intros Hi. destruct (lookup_lt_is_Some_2 (space self) (Z.to_nat i))
      as [v Hv]; [lia|].
    exists v. split; [done|]. rewrite <- (Z2Nat.id i) by lia.
    by apply list_getitem_nonneg.
  - apply list_getitem_negative.
Qed.

(** C7 fails as stated: in the one-entry space built from the single tag
    N, the index -1 lies outside [[0, size())] and [feature(-1)] returns
    N. *)
Lemma feature_negative_index_returns :
  let self := SupertagSpace_init [(["Time"], [Some "N"])]%string None in
  size self = 1 ∧ ¬ (0 ≤ -1 < size self) ∧ feature (-1) self = Ok "N"%string.
Proof. vm_compute. split_and!; [done | | done]. intros [H _]. by apply H. Qed.

(** C10, as the code has it. In a counted space built without the fallback
    slot, at construction and after any sequence of lookups, [index(u)] is
    -1 for every value [u] that was not retained, and when at least one
    value was retained [feature(index(u))] returns the last retained
    value. *)
Theorem closed_space_unknown_lookup extracted min_count fs :
  ∃ self,
    queried fs (FeatureSpace_init extracted min_count false) = Ok self
    ∧ ∀ u, u ∉ vocabulary extracted min_count →
        ∃ self', index u self = Ok (-1, self')
          ∧ ∀ v, last (vocabulary extracted min_count) = Some v →
                 feature (-1) self' = Ok v.
Proof.
  set (init := FeatureSpace_init extracted min_count false).
  destruct (queried_same_answers fs init) as (self & Hq & Hspace & Hdef & Hres).
  { apply FeatureSpace_init_total. }
  exists self. split; [done|]. intros u Hu.
  destruct (index_resolve self u (-1)) as (self' & Hi & Hs' & _).
  { rewrite Hres. subst init. by rewrite FeatureSpace_init_unknown. }
  exists self'. split; [done|]. intros v Hv.
  assert (Hsp : space self' = vocabulary extracted min_count).
  { rewrite Hs', Hspace. subst init.
    by rewrite FeatureSpace_init_space, app_nil_r. }
  unfold feature. rewrite Hsp.
  destruct (list_getitem_negative (vocabulary extracted min_count) (-1))
    as (x & Hx & ->).
  { apply last_Some in Hv as [l' ->]. rewrite length_app. simpl. lia. }
  rewrite last_lookup in Hv. f_equal.
  replace (Z.to_nat (Z.of_nat (length (vocabulary extracted min_count)) + -1))
    with (pred (length (vocabulary extracted min_count))) in Hx by lia.
  congruence.
Qed.

(** C10 fails as stated on the space with nothing retained: built from an
    empty corpus, [index] of any tag is -1 and [feature(-1)] raises
    [IndexError]. *)
Lemma closed_empty_space_feature_raises :
  ∃ self', index "N" (SupertagSpace_init [] None) = Ok (-1, self')
           ∧ feature (-1) self' = Raise IndexError.
Proof. eexists. split; reflexivity. Qed.

(** ** The pretrained loader *)

Section PretrainedProperties.

Context {F : Type} (float : string → option F).

Lemma floats_length fields (e : list F) :
  floats float fields = Ok e → length e = length fields.
Proof.
  revert e. induction fields as [|s fields IH]; intros e; simpl.
  - by intros [= <-].
  - destruct (float s); [|done]. destruct (floats float fields); [|done].
    simpl. intros [= <-]. simpl. f_equal. by apply IH.
Qed.

Lemma floats_total fields :
  (∀ s, s ∈ fields → is_Some (float s)) → ∃ e, floats float fields = Ok e.
Proof.
  induction fields as [|s fields IH]; intros Hall; simpl; [by eexists|].
  destruct (Hall s) as [x ->]; [by left|].
  destruct IH as [e ->]; [|by eexists]. intros s' ?. apply Hall. by right.
Qed.

(** The ways in which a line is read without an exception. *)
Lemma load_line_Ok i line st st' :
  load_line float i line st = Ok st' →
  ∃ word fields,
    split line = word :: fields
    ∧ (i = 0%nat → word = UNKNOWN_MARKER)
    ∧ ((lower word ∈ already_added st ∧ st' = st)
       ∨ ((lower word ∉ already_added st)
          ∧ ∃ e, floats float fields = Ok e
                 ∧ (∀ d, loading_embedding_size st = Some d → d = length e)
                 ∧ st' = record_line (lower word) e st)).
Proof.
  unfold load_line. destruct (split line) as [|word fields]; [done|].
  intros Hl. exists word, fields. split; [done|].
  destruct (bool_decide (i = 0%nat) && negb (bool_decide (word = UNKNOWN_MARKER)))
    eqn:Hfirst; [done|].
  split.
  { intros ->. rewrite bool_decide_eq_true_2 in Hfirst by done. simpl in Hfirst.
    apply negb_false_iff in Hfirst. by apply bool_decide_eq_true in Hfirst. }
  case_bool_decide as Hadded.
  - left. split; [done|]. by injection Hl.
  - right. split; [done|]. destruct (floats float fields) as [e|]; [|done].
    exists e. split; [done|]. simpl in Hl.
    destruct (loading_embedding_size st) as [d|] eqn:Hsize; simpl in Hl.
    + case_bool_decide as Hd; [done|]. simpl in Hl.
      assert (d = length e) as -> by (by destruct (decide (d = length e))).
      split; [by intros ? [= <-]|]. by injection Hl.
    + split; [done|]. by injection Hl.
Qed.

(** A line with a word that was not recorded yet. *)
Lemma load_line_new i line st word fields e :
  split line = word :: fields →
  i ≠ 0%nat ∨ word = UNKNOWN_MARKER →
  lower word ∉ already_added st →
  floats float fields = Ok e →
  load_line float i line st
  = match loading_embedding_size st with
    | Some d =>
        if bool_decide (d ≠ length e)
        then Raise (ValueError_dimensions_mismatch d (length e))
        else Ok (record_line (lower word) e st)
    | None => Ok (record_line (lower word) e st)
    end.
Proof.
  intros Hsplit Hfirst Hnew He. unfold load_line. rewrite Hsplit.
  assert ((bool_decide (i = 0%nat) && negb (bool_decide (word = UNKNOWN_MARKER)))
          = false) as ->.
  { destruct Hfirst as [Hi| ->].
    - by rewrite bool_decide_eq_false_2.
    - rewrite (bool_decide_eq_true_2 (_ = UNKNOWN_MARKER)) by done.
      apply andb_false_r. }
  rewrite bool_decide_eq_false_2 by done. rewrite He. simpl.
  destruct (loading_embedding_size st) as [d|]; simpl; [|done].
  case_bool_decide as Hd; [done|]. simpl.
  by destruct (decide (d = length e)) as [->|].
Qed.

(** A line whose word was recorded already is skipped. *)
Lemma load_line_duplicate i line st word fields :
  split line = word :: fields →
  i ≠ 0%nat →
  lower word ∈ already_added st →
  load_line float i line st = Ok st.
Proof.
  intros Hsplit Hi Hdup. unfold load_line. rewrite Hsplit.
  rewrite (bool_decide_eq_false_2 (i = 0%nat)) by done. simpl.
  by rewrite bool_decide_eq_true_2.
Qed.

(** Only line 0 is treated apart. *)
Lemma load_line_index i j line st :
  i ≠ 0%nat → j ≠ 0%nat → load_line float i line st = load_line float j line st.
Proof.
  intros Hi Hj. unfold load_line.
  by rewrite (bool_decide_eq_false_2 (i = 0%nat)), (bool_decide_eq_false_2 (j = 0%nat)).
Qed.

Lemma load_lines_index i j lines st :
  i ≠ 0%nat → j ≠ 0%nat → load_lines float i lines st = load_lines float j lines st.
Proof.
  revert i j st. induction lines as [|line lines IH]; intros i j st Hi Hj; [done|].
  simpl. rewrite (load_line_index i j) by done.
  destruct (load_line float j line st); [|done]. simpl. by apply IH.
Qed.

Lemma load_lines_app i pre post st :
  load_lines float i (pre ++ post) st
  = run st' := load_lines float i pre st in
    load_lines float (i + length pre) post st'.
Proof.
  revert i st. induction pre as [|line pre IH]; intros i st; simpl.
  - by rewrite Nat.add_0_r.
  - destruct (load_line float i line st); [|done]. simpl.
    rewrite IH. by rewrite Nat.add_succ_r.
Qed.

Lemma well_loaded_start : well_loaded (@loading_start F).
Proof.
  split; simpl; [constructor | | done |].
  - intros w. by rewrite elem_of_empty, elem_of_nil.
  - by intros e ?%elem_of_nil.
Qed.

Lemma well_loaded_line i line st st' :
  well_loaded st → load_line float i line st = Ok st' → well_loaded st'.
Proof.
  intros [Hnd Hadd Hlen Hdim] Hl.
  apply load_line_Ok in Hl
    as (word & fields & _ & _ & [[_ ->]|(Hnew & e & _ & Hsize & ->)]); [done|].
  split; simpl.
  - apply NoDup_app. split_and!; [done | | apply NoDup_singleton].
    intros w Hw ->%list_elem_of_singleton. by apply Hnew, Hadd.
  - intros w. rewrite elem_of_union, elem_of_singleton, elem_of_app,
      list_elem_of_singleton, Hadd. tauto.
  - rewrite !length_app. simpl. lia.
  - intros e' [He'| ->%list_elem_of_singleton]%elem_of_app; [|done].
    f_equal. symmetry. by apply Hsize, Hdim.
Qed.

Lemma well_loaded_lines i lines st st' :
  well_loaded st → load_lines float i lines st = Ok st' → well_loaded st'.
Proof.
  revert i st. induction lines as [|line lines IH]; intros i st Hwl; simpl.
  - by intros [= <-].
  - destruct (load_line float i line st) as [st1|] eqn:Hl; [|done]. simpl.
    apply IH. by eapply well_loaded_line.
Qed.

(** Reading more lines only appends. *)
Lemma load_line_grows i line st st' :
  load_line float i line st = Ok st' →
  loading_space st `prefix_of` loading_space st'
  ∧ loading_embeddings st `prefix_of` loading_embeddings st'
  ∧ (∀ d, loading_embedding_size st = Some d →
          loading_embedding_size st' = Some d).
Proof.
  intros Hl. apply load_line_Ok in Hl
    as (word & fields & _ & _ & [[_ ->]|(Hnew & e & _ & Hsize & ->)]); [done|].
  simpl. split_and!; [by apply prefix_app_r | by apply prefix_app_r |].
  intros d Hd. f_equal. symmetry. by apply Hsize.
Qed.

Lemma load_lines_grows i lines st st' :
  load_lines float i lines st = Ok st' →
  loading_space st `prefix_of` loading_space st'
  ∧ loading_embeddings st `prefix_of` loading_embeddings st'
  ∧ (∀ d, loading_embedding_size st = Some d →
          loading_embedding_size st' = Some d).
Proof.
  revert i st. induction lines as [|line lines IH]; intros i st; simpl.
  - by intros [= <-].
  - destruct (load_line float i line st) as [st1|] eqn:Hl; [|done]. simpl.
    intros Hls. apply load_line_grows in Hl as (? & ? & Hd1).
    apply IH in Hls as (? & ? & Hd2).
    split_and!; [by etrans | by etrans | auto].
Qed.

(** The recorded words are the lower-cased words of the lines read. *)
Lemma load_lines_added i lines st st' w :
  well_loaded st →
  load_lines float i lines st = Ok st' →
  w ∈ loading_space st' ↔
  w ∈ loading_space st
  ∨ ∃ line word fields,
      line ∈ lines ∧ split line = word :: fields ∧ lower word = w.
Proof.
  revert i st. induction lines as [|line lines IH]; intros i st Hwl; simpl.
  - intros [= <-]. split; [by left|]. intros [?|(? & ? & ? & []%elem_of_nil & _)]; done.
  - destruct (load_line float i line st) as [st1|] eqn:Hl; [|done]. simpl.
    intros Hls. rewrite (IH _ _ (well_loaded_line _ _ _ _ Hwl Hl) Hls).
    apply load_line_Ok in Hl
      as (word & fields & Hsplit & _ & [[Hdup ->]|(Hnew & e & _ & _ & ->)]).
    + split.
      * intros [?|(l & w' & fs & ? & ? & ?)]; [by left|].
        right. exists l, w', fs. split; [by right | done].
      * intros [?|(l & w' & fs & [->|?]%elem_of_cons & Hs & Hw)]; [by left| |].
        -- left. rewrite Hsplit in Hs. injection Hs as <- <-. subst w.
           by apply (wl_added _ Hwl).
        -- right. by exists l, w', fs.
    + simpl. rewrite elem_of_app, list_elem_of_singleton. split.
      * intros [[?| ->]|(l & w' & fs & ? & ? & ?)]; [by left | |].
        -- right. exists line, word, fields. split; [by left | done].
        -- right. exists l, w', fs. split; [by right | done].
      * intros [?|(l & w' & fs & [->|?]%elem_of_cons & Hs & Hw)]; [by left; left | |].
        -- left; right. rewrite Hsplit in Hs. by injection Hs as <- <-.
        -- right. by exists l, w', fs.
Qed.

Lemma floats_raises fields e :
  floats float fields = Raise e → ∃ s, s ∈ fields ∧ e = ValueError_float s.
Proof.
  induction fields as [|s fields IH]; simpl; [done|].
  destruct (float s).
  - destruct (floats float fields); [done|]. simpl. intros [= <-].
    destruct IH as (s' & ? & ?); [done|]. exists s'. split; [by right | done].
  - intros [= <-]. exists s. split; [by left | done].
Qed.

(** Past line 0 the format check is never made. *)
Lemma load_line_format i line st :
  load_line float i line st = Raise ValueError_first_not_unknown →
  i = 0%nat ∧ ∃ word fields, split line = word :: fields ∧ word ≠ UNKNOWN_MARKER.
Proof.
  unfold load_line. destruct (split line) as [|word fields]; [done|].
  case_bool_decide as Hi; simpl.
  - case_bool_decide as Hw; simpl; [|by eauto].
    case_bool_decide; [done|]. destruct (floats float fields) as [emb|] eqn:Hf.
    + simpl. destruct (loading_embedding_size st); simpl; [|done].
      by case_bool_decide.
    + simpl. intros [= ->]. by apply floats_raises in Hf as (? & _ & ?).
  - case_bool_decide; [done|]. destruct (floats float fields) as [emb|] eqn:Hf.
    + simpl. destruct (loading_embedding_size st); simpl; [|done].
      by case_bool_decide.
    + simpl. intros [= ->]. by apply floats_raises in Hf as (? & _ & ?).
Qed.

Lemma load_lines_format i lines st :
  i ≠ 0%nat → load_lines float i lines st ≠ Raise ValueError_first_not_unknown.
Proof.
  revert i st. induction lines as [|line lines IH]; intros i st Hi; simpl; [done|].
  destruct (load_line float i line st) as [st1|e] eqn:Hl; simpl.
  - by apply IH.
  - intros [= ->]. by apply load_line_format in Hl as [? _].
Qed.

Lemma init_Ok lines sp :
  PretrainedEmbeddingSpace_init float lines = Ok sp ↔
  ∃ st, load_lines float 0 lines loading_start = Ok st
        ∧ sp = mkPretrained
                 (mkFeatureSpace (loading_space st) None
                    (mkDefaultdict (Some 0) (dict_of_enumerate (loading_space st))))
                 (loading_embedding_size st) (loading_embeddings st).
Proof.
  unfold PretrainedEmbeddingSpace_init.
  destruct (load_lines float 0 lines loading_start) as [st|e]; simpl.
  - split; [intros [= <-]; eauto | by intros (? & [= <-] & ->)].
  - split; [done | by intros (? & ? & _)].
Qed.

Lemma init_Raise lines e :
  PretrainedEmbeddingSpace_init float lines = Raise e ↔
  load_lines float 0 lines loading_start = Raise e.
Proof.
  unfold PretrainedEmbeddingSpace_init.
  destruct (load_lines float 0 lines loading_start) as [st|e']; simpl; [done|].
  split; by intros [= <-].
Qed.

(** C5. Loading fails with the format violation if and only if the file
    has a first line with a word on it and that word is not the unknown
    marker. *)
Theorem format_violation_iff lines :
  PretrainedEmbeddingSpace_init float lines = Raise ValueError_first_not_unknown
  ↔ ∃ line rest word fields,
      lines = line :: rest ∧ split line = word :: fields
      ∧ word ≠ UNKNOWN_MARKER.
Proof.
  rewrite init_Raise. split.
  - destruct lines as [|line rest]; [done|]. simpl.
    destruct (load_line float 0 line loading_start) as [st|e] eqn:Hl; simpl.
    + intros Hrest. by apply load_lines_format in Hrest.
    + intros [= ->]. apply load_line_format in Hl as (_ & word & fields & ? & ?).
      by exists line, rest, word, fields.
  - intros (line & rest & word & fields & -> & Hsplit & Hword). simpl.
    unfold load_line. rewrite Hsplit.
    by rewrite bool_decide_eq_true_2, bool_decide_eq_false_2.
Qed.

(** The dimensionality is that of the first line. *)
Lemma first_line_dimension first rest word fields st :
  split first = word :: fields →
  load_lines float 0 (first :: rest) loading_start = Ok st →
  loading_embedding_size st = Some (length fields).
Proof.
  intros Hsplit. simpl.
  destruct (load_line float 0 first loading_start) as [st1|] eqn:Hl; [|done].
  simpl. intros Hrest. apply load_lines_grows in Hrest as (_ & _ & Hsize).
  apply Hsize.
  apply load_line_Ok in Hl
    as (w & fs & Hs & _ & [[Hdup _]|(_ & e & He & _ & ->)]).
  - by apply elem_of_empty in Hdup.
  - rewrite Hsplit in Hs. injection Hs as <- <-. simpl.
    by rewrite (floats_length _ _ He).
Qed.

(** C6, as the code has it. When the lines before it load, a line whose
    lower-cased word occurs on none of them and whose fields are all
    floats makes the load fail with the dimension mismatch if the number of
    its fields differs from that of the first line; and every vector of a
    loaded space has the dimensionality [embedding_size]. *)
Theorem dimension_mismatch_on_new_word :
  (∀ first rest line post word0 fields0 word fields sp,
     PretrainedEmbeddingSpace_init float (first :: rest) = Ok sp →
     split first = word0 :: fields0 →
     split line = word :: fields →
     (∀ p w fs, p ∈ first :: rest → split p = w :: fs → lower w ≠ lower word) →
     (∀ s, s ∈ fields → is_Some (float s)) →
     length fields ≠ length fields0 →
     PretrainedEmbeddingSpace_init float (first :: rest ++ line :: post)
     = Raise (ValueError_dimensions_mismatch (length fields0) (length fields)))
  ∧ (∀ lines sp e,
       PretrainedEmbeddingSpace_init float lines = Ok sp →
       e ∈ embeddings sp → pretrained_embedding_size sp = Some (length e)).
Proof.
  split.
  - intros first rest line post word0 fields0 word fields sp
      (st & Hst & _)%init_Ok Hfirst Hsplit Hnew Hfloats Hlen.
    apply init_Raise.
    change (first :: rest ++ line :: post) with ((first :: rest) ++ line :: post).
    rewrite load_lines_app, Hst. simpl bind.
    destruct (floats_total fields Hfloats) as [e He].
    cbn [load_lines]. rewrite (load_line_new _ _ _ word fields e); try done.
    + rewrite (first_line_dimension _ _ _ _ _ Hfirst Hst).
      rewrite (floats_length _ _ He).
      by rewrite bool_decide_eq_true_2.
    + left. simpl. lia.
    + intros Hin.
      apply (wl_added _ (well_loaded_lines _ _ _ _ well_loaded_start Hst)) in Hin.
      apply (load_lines_added _ _ _ _ _ well_loaded_start Hst) in Hin
        as [[]%elem_of_nil|(p & w & fs & Hp & Hs & Hw)].
      by apply (Hnew p w fs).
  - intros lines sp e (st & Hst & ->)%init_Ok He. simpl in *.
    by apply (wl_dimension _ (well_loaded_lines _ _ _ _ well_loaded_start Hst)).
Qed.

Lemma pretrained_NoDup lines (sp : PretrainedEmbeddingSpace F) :
  PretrainedEmbeddingSpace_init float lines = Ok sp → NoDup (space sp).
Proof.
  intros (st & Hst & ->)%init_Ok. simpl.
  by apply (wl_NoDup _ (well_loaded_lines _ _ _ _ well_loaded_start Hst)).
Qed.

Lemma pretrained_resolve lines (sp : PretrainedEmbeddingSpace F) f :
  PretrainedEmbeddingSpace_init float lines = Ok sp →
  resolve (ispace sp) f
  = match dict_of_enumerate (space sp) !! f with
    | Some i => Some i
    | None => Some 0
    end.
Proof. by intros (st & Hst & ->)%init_Ok. Qed.

Lemma pretrained_total lines (sp : PretrainedEmbeddingSpace F) f :
  PretrainedEmbeddingSpace_init float lines = Ok sp →
  is_Some (resolve (ispace sp) f).
Proof.
  intros Hsp. rewrite (pretrained_resolve _ _ _ Hsp). by destruct (_ !! f).
Qed.

Lemma pretrained_known lines (sp : PretrainedEmbeddingSpace F) f n :
  PretrainedEmbeddingSpace_init float lines = Ok sp →
  space sp !! n = Some f → resolve (ispace sp) f = Some (Z.of_nat n).
Proof.
  intros Hsp Hn. rewrite (pretrained_resolve _ _ _ Hsp).
  by rewrite (dict_of_enumerate_Some _ _ n (pretrained_NoDup _ _ Hsp) Hn).
Qed.

Lemma pretrained_unknown lines (sp : PretrainedEmbeddingSpace F) f :
  PretrainedEmbeddingSpace_init float lines = Ok sp →
  f ∉ space sp → resolve (ispace sp) f = Some 0.
Proof.
  intros Hsp Hf. rewrite (pretrained_resolve _ _ _ Hsp).
  by rewrite dict_of_enumerate_None.
Qed.

(** C8. A line whose lower-cased word occurs on an earlier line changes
    nothing: the load ends as it does without that line, with the same
    space, indices, vectors and dimensionality, or the same failure.  The
    first line that carries a word is the one recorded: the space holds the
    lower-cased word at some position, [index] returns that position, and
    the vector at that position is the one of that line. *)
Theorem duplicate_lines_ignored :
  (∀ pre dup post word fields,
     (∃ p w fs, p ∈ pre ∧ split p = w :: fs ∧ lower w = lower word) →
     split dup = word :: fields →
     PretrainedEmbeddingSpace_init float (pre ++ dup :: post)
     = PretrainedEmbeddingSpace_init float (pre ++ post))
  ∧ (∀ pre line post word fields (sp : PretrainedEmbeddingSpace F),
       PretrainedEmbeddingSpace_init float (pre ++ line :: post) = Ok sp →
       split line = word :: fields →
       (∀ p w fs, p ∈ pre → split p = w :: fs → lower w ≠ lower word) →
       ∃ n e self',
         space sp !! n = Some (lower word)
         ∧ floats float fields = Ok e
         ∧ embeddings sp !! n = Some e
         ∧ index (lower word) sp = Ok (Z.of_nat n, self')).
Proof.
  split.
  - intros pre dup post word fields (p & w & fs & Hp & Hs & Hw) Hsplit.
    unfold PretrainedEmbeddingSpace_init. f_equal.
    rewrite !load_lines_app.
    destruct (load_lines float 0 pre loading_start) as [st|] eqn:Hst; [|done].
    simpl bind. cbn [load_lines].
    assert (length pre ≠ 0%nat) as Hlen.
    { intros Hnil%nil_length_inv. subst pre. by apply elem_of_nil in Hp. }
    rewrite (load_line_duplicate _ _ _ word fields); [| done | lia |].
    + simpl bind. apply load_lines_index; lia.
    + apply (wl_added _ (well_loaded_lines _ _ _ _ well_loaded_start Hst)).
      apply (load_lines_added _ _ _ _ _ well_loaded_start Hst).
      right. by exists p, w, fs.
  - intros pre line post word fields sp Hsp Hsplit Hnew.
    pose proof Hsp as (st3 & Hst3 & Heq)%init_Ok.
    rewrite load_lines_app in Hst3.
    destruct (load_lines float 0 pre loading_start) as [st1|] eqn:Hst1; [|done].
    cbn [bind load_lines] in Hst3.
    destruct (load_line float (0 + length pre) line st1) as [st2|] eqn:Hst2;
      cbn [bind] in Hst3; [|done].
    apply load_lines_grows in Hst3 as (Hspace & Hemb & _).
    pose proof (well_loaded_lines _ _ _ _ well_loaded_start Hst1) as Hwl1.
    apply load_line_Ok in Hst2
      as (w & fs & Hs & _ & [[Hdup _]|(_ & e & He & _ & ->)]);
      rewrite Hsplit in Hs; injection Hs as <- <-.
    + exfalso. apply (wl_added _ Hwl1) in Hdup.
      apply (load_lines_added _ _ _ _ _ well_loaded_start Hst1) in Hdup
        as [[]%elem_of_nil|(p & w & fs & Hp & Hs & Hw)].
      by apply (Hnew p w fs).
    + set (n := length (loading_space st1)).
      assert (space sp !! n = Some (lower word)) as Hn.
      { subst sp. simpl. eapply prefix_lookup_Some; [|done]. simpl.
        by rewrite list_lookup_middle. }
      destruct (index_resolve sp (lower word) (Z.of_nat n)) as (self' & Hi & _).
      { by eapply pretrained_known. }
      exists n, e, self'. split_and!; [done | done | | done].
      subst sp. simpl. eapply prefix_lookup_Some; [|done]. simpl.
      rewrite list_lookup_middle; [done|]. by rewrite (wl_length _ Hwl1).
Qed.

(** C3. In a pretrained space, at construction and after any sequence of
    lookups, [index(w) == 0] for every word [w] that is not in the loaded
    vocabulary.  A file whose first line reads [*UNKNOWN* 0.1 0.2] and
    whose second line reads [Dog 0.3 0.4] loads into a space with
    [size() == 2], [index("dog") == 1], [index("cat") == 0] and
    [embedding_size == 2]. *)
Theorem pretrained_unknown_is_zero :
  (∀ lines (sp : PretrainedEmbeddingSpace F) fs w,
     PretrainedEmbeddingSpace_init float lines = Ok sp →
     w ∉ space sp →
     ∃ self self', queried fs sp = Ok self ∧ index w self = Ok (0, self'))
  ∧ (∀ line1 line2,
       split line1 = ["*UNKNOWN*"; "0.1"; "0.2"]%string →
       split line2 = ["Dog"; "0.3"; "0.4"]%string →
       (∀ s, s ∈ ["0.1"; "0.2"; "0.3"; "0.4"]%string → is_Some (float s)) →
       ∃ sp : PretrainedEmbeddingSpace F,
         PretrainedEmbeddingSpace_init float [line1; line2] = Ok sp
         ∧ size sp = 2
         ∧ (∃ self', index "dog" sp = Ok (1, self'))
         ∧ (∃ self', index "cat" sp = Ok (0, self'))
         ∧ pretrained_embedding_size sp = Some 2%nat).
Proof.
  split.
  - intros lines sp fs w Hsp Hw.
    destruct (index_after_queries fs sp w 0) as (self & Hq & _ & self' & Hi & _).
    + intros g. by eapply pretrained_total.
    + by eapply pretrained_unknown.
    + by exists self, self'.
  - intros line1 line2 Hs1 Hs2 Hfloat.
    destruct (floats_total ["0.1"; "0.2"]%string) as [e1 He1].
    { intros s Hs. apply Hfloat. set_unfold. tauto. }
    destruct (floats_total ["0.3"; "0.4"]%string) as [e2 He2].
    { intros s Hs. apply Hfloat. set_unfold. tauto. }
    pose proof (floats_length _ _ He1) as Hl1.
    pose proof (floats_length _ _ He2) as Hl2. simpl in Hl1, Hl2.
    eexists. split.
    { unfold PretrainedEmbeddingSpace_init. cbn [load_lines].
      rewrite (load_line_new 0 line1 _ _ _ e1 Hs1); [|by right | |done].
      2:{ apply not_elem_of_empty. }
      cbn [loading_embedding_size loading_start bind].
      rewrite (load_line_new 1 line2 _ _ _ e2 Hs2); [|by left | |done].
      2:{ cbn. set_unfold. intros [[=]|[]]. }
      cbn [loading_embedding_size record_line].
      rewrite Hl1, Hl2, bool_decide_eq_false_2 by (intros H; by apply H).
      cbn [bind]. reflexivity. }
    split_and!.
    + reflexivity.
    + eexists. vm_compute. reflexivity.
    + eexists. vm_compute. reflexivity.
    + cbn. by rewrite Hl2.
Qed.

(** C1. [index] returns an integer and does not raise, on any value and
    after any sequence of earlier lookups.  In a counted space a retained
    value resolves to its position in the vocabulary and any other value to
    [default_index], which with the fallback reserved is the last slot,
    the one that holds the unknown marker.  In a pretrained space a loaded
    word resolves to its position and any other value to 0. *)
Theorem index_never_raises :
  (∀ extracted min_count append_unknown fs f,
     ∃ self i self',
       queried fs (FeatureSpace_init extracted min_count append_unknown) = Ok self
       ∧ index f self = Ok (i, self')
       ∧ (∀ n, vocabulary extracted min_count !! n = Some f → i = Z.of_nat n)
       ∧ (f ∉ vocabulary extracted min_count →
          default_index self = Some i
          ∧ (append_unknown = true →
             i = size self - 1 ∧ feature i self = Ok UNKNOWN_MARKER)))
  ∧ (∀ lines (sp : PretrainedEmbeddingSpace F) fs f,
       PretrainedEmbeddingSpace_init float lines = Ok sp →
       ∃ self i self',
         queried fs sp = Ok self
         ∧ index f self = Ok (i, self')
         ∧ (∀ n, space sp !! n = Some f → i = Z.of_nat n)
         ∧ (f ∉ space sp → i = 0)).
Proof.
  split.
  - intros extracted min_count append_unknown fs f.
    set (init := FeatureSpace_init extracted min_count append_unknown).
    destruct (FeatureSpace_init_total extracted min_count append_unknown f)
      as [i Hi].
    destruct (index_after_queries fs init f i)
      as (self & Hq & (Hspace & Hdef & _) & self' & Hidx & _);
      [apply FeatureSpace_init_total | done |].
    exists self, i, self'. split_and!; [done | done | |].
    + intros n Hn. rewrite (FeatureSpace_init_known _ _ _ _ _ Hn) in Hi.
      by injection Hi.
    + intros Hf. rewrite FeatureSpace_init_unknown in Hi by done.
      split; [by rewrite Hdef|]. intros ->.
      rewrite FeatureSpace_init_default in Hi. injection Hi as <-.
      unfold feature, size. rewrite Hspace. subst init.
      rewrite FeatureSpace_init_space, length_app. simpl. split; [lia|].
      apply list_getitem_nonneg. by rewrite list_lookup_middle.
  - intros lines sp fs f Hsp.
    destruct (pretrained_total _ _ f Hsp) as [i Hi].
    destruct (index_after_queries fs sp f i)
      as (self & Hq & _ & self' & Hidx & _);
      [intros g; by eapply pretrained_total | done |].
    exists self, i, self'. split_and!; [done | done | |].
    + intros n Hn. rewrite (pretrained_known _ _ _ _ Hsp Hn) in Hi.
      by injection Hi.
    + intros Hf. rewrite (pretrained_unknown _ _ _ Hsp Hf) in Hi.
      by injection Hi.
Qed.

End PretrainedProperties.

(** ** Concrete files *)

(** The file of C3, read with the decimal reader. *)
Lemma pretrained_unknown_is_zero_witness :
  ∃ sp : PretrainedEmbeddingSpace Q,
    PretrainedEmbeddingSpace_init decimal
      ["*UNKNOWN* 0.1 0.2" +:+ newline; "Dog 0.3 0.4" +:+ newline]%string = Ok sp
    ∧ size sp = 2
    ∧ (∃ self', index "dog" sp = Ok (1, self'))
    ∧ (∃ self', index "cat" sp = Ok (0, self'))
    ∧ pretrained_embedding_size sp = Some 2%nat.
Proof.
  apply (proj2 (pretrained_unknown_is_zero decimal)); [reflexivity..|].
  intros s Hs. set_unfold.
  destruct Hs as [->|[->|[->|[->|[]]]]]; vm_compute; eauto.
Defined.

(** The lookups of C1 on the space loaded from the file of C3. *)
Lemma index_never_raises_witness :
  let sp :=
    mkPretrained
      (mkFeatureSpace ["*unknown*"; "dog"]%string None
         (mkDefaultdict (Some 0) (dict_of_enumerate ["*unknown*"; "dog"]%string)))
      (Some 2%nat) [[0.1; 0.2]; [0.3; 0.4]]%Q in
  ∃ self i self',
    queried ["cat"; "dog"; "cat"]%string sp = Ok self
    ∧ index "bird" self = Ok (i, self')
    ∧ (∀ n, space sp !! n = Some "bird"%string → i = Z.of_nat n)
    ∧ ("bird"%string ∉ space sp → i = 0).
Proof.
  intros sp.
  apply (proj2 (index_never_raises decimal)
           ["*UNKNOWN* 0.1 0.2"; "Dog 0.3 0.4"]%string sp).
  vm_compute. reflexivity.
Defined.

(** A file whose second line carries a new word and one field too few. *)
Lemma dimension_mismatch_on_new_word_witness :
  PretrainedEmbeddingSpace_init decimal
    ["*UNKNOWN* 0.1 0.2"; "Dog 0.3"; "cat 0.5 0.6"]%string
  = Raise (ValueError_dimensions_mismatch 2 1).
Proof.
  eapply (proj1 (dimension_mismatch_on_new_word decimal)
            "*UNKNOWN* 0.1 0.2"%string [] "Dog 0.3"%string ["cat 0.5 0.6"%string]
            "*UNKNOWN*"%string ["0.1"; "0.2"]%string "Dog"%string ["0.3"]%string).
  - vm_compute. reflexivity.
  - reflexivity.
  - reflexivity.
  - intros p w fs ->%list_elem_of_singleton [= <- _]. vm_compute. discriminate.
  - intros s ->%list_elem_of_singleton. vm_compute. eauto.
  - simpl. lia.
Defined.

(** C6 fails as stated: the second line of this file has one field where
    the first has two, and the file loads, since the word of the second
    line was recorded already. *)
Lemma duplicate_line_dimension_unchecked :
  let lines := ["*UNKNOWN* 0.1 0.2"; "*unknown* 0.3"]%string in
  map split lines
  = [["*UNKNOWN*"; "0.1"; "0.2"]; ["*unknown*"; "0.3"]]%string
  ∧ ∃ sp : PretrainedEmbeddingSpace Q,
      PretrainedEmbeddingSpace_init decimal lines = Ok sp
      ∧ size sp = 1
      ∧ pretrained_embedding_size sp = Some 2%nat
      ∧ embeddings sp = [[0.1; 0.2]%Q].
Proof. split; [reflexivity|]. eexists. split; [vm_compute|]; done. Qed.

(** A file with the same word on the second and the third line. *)
Lemma duplicate_lines_ignored_witness :
  PretrainedEmbeddingSpace_init decimal
    ["*UNKNOWN* 0.1 0.2"; "Dog 0.3 0.4"; "DOG 0.9 0.9"; "cat 0.5 0.6"]%string
  = PretrainedEmbeddingSpace_init decimal
      ["*UNKNOWN* 0.1 0.2"; "Dog 0.3 0.4"; "cat 0.5 0.6"]%string.
Proof.
  apply (proj1 (duplicate_lines_ignored decimal)
           ["*UNKNOWN* 0.1 0.2"; "Dog 0.3 0.4"]%string "DOG 0.9 0.9"%string
           ["cat 0.5 0.6"]%string "DOG"%string ["0.9"; "0.9"]%string).
  - exists "Dog 0.3 0.4"%string, "Dog"%string, ["0.3"; "0.4"]%string.
    split_and!; [|reflexivity..]. set_unfold. tauto.
  - reflexivity.
Defined.

(** ** Prefixes and suffixes *)

Lemma length_append (s t : string) :
  String.length (s +:+ t) = (String.length s + String.length t)%nat.
Proof. induction s as [|c s IH]; simpl; [done|]. by rewrite IH. Qed.

Lemma substring_all (s : string) : String.substring 0 (String.length s) s = s.
Proof. induction s as [|c s IH]; simpl; [done|]. by rewrite IH. Qed.

(** A string is its first [n] characters followed by the others. *)
Lemma substring_cut (n : nat) (s : string) :
  (n ≤ String.length s)%nat →
  String.substring 0 n s +:+ String.substring n (String.length s - n) s = s
  ∧ String.length (String.substring 0 n s) = n.
Proof.
  revert n. induction s as [|c s IH]; intros [|n] Hn; simpl in *; try done.
  - lia.
  - by rewrite substring_all.
  - destruct (IH n) as [Hcut Hlen]; [lia|].
    rewrite Hlen. split; [|done].
    change (String c (String.substring 0 n s
                      +:+ String.substring n (String.length s - n) s)
            = String c s).
    by rewrite Hcut.
Qed.

Section AffixProperties.

Variables START_MARKER END_MARKER : string.

Lemma affix_marker n token :
  token = START_MARKER ∨ token = END_MARKER →
  PrefixSpace_extract_from_token START_MARKER END_MARKER n token = token ∧ SuffixSpace_extract_from_token START_MARKER END_MARKER n token = token.
Proof.
  intros Hm. unfold PrefixSpace_extract_from_token, SuffixSpace_extract_from_token.
  destruct Hm as [->| ->].
  - by rewrite bool_decide_eq_true_2.
  - rewrite (bool_decide_eq_true_2 (END_MARKER = END_MARKER)) by done.
    by rewrite orb_true_r.
Qed.

Lemma affix_ordinary n token :
  token ≠ START_MARKER → token ≠ END_MARKER →
  PrefixSpace_extract_from_token START_MARKER END_MARKER n token
  = (if n <=? len token then slice_to token n else OUT_OF_RANGE_MARKER)
  ∧ SuffixSpace_extract_from_token START_MARKER END_MARKER n token
    = (if n <=? len token then slice_from token (- n) else OUT_OF_RANGE_MARKER).
Proof.
  intros Hs He. unfold PrefixSpace_extract_from_token, SuffixSpace_extract_from_token.
  by rewrite !bool_decide_eq_false_2.
Qed.

(** X17. Both transforms return a boundary marker unchanged.  Any other
    token shorter than [n] maps to the out-of-range marker; one of at least
    [n] characters maps to its first [n] characters under the prefix
    transform when [n >= 0], and to its last [n] characters under the
    suffix transform when [n >= 1].  With [n = 3], [quick] has the prefix
    [qui] and [ox] maps to the out-of-range marker. *)
Theorem affix_transforms n token :
  (token = START_MARKER ∨ token = END_MARKER →
   PrefixSpace_extract_from_token START_MARKER END_MARKER n token = token ∧ SuffixSpace_extract_from_token START_MARKER END_MARKER n token = token)
  ∧ (token ≠ START_MARKER → token ≠ END_MARKER →
     (len token < n →
      PrefixSpace_extract_from_token START_MARKER END_MARKER n token = OUT_OF_RANGE_MARKER
      ∧ SuffixSpace_extract_from_token START_MARKER END_MARKER n token = OUT_OF_RANGE_MARKER)
     ∧ (0 ≤ n ≤ len token →
        len (PrefixSpace_extract_from_token START_MARKER END_MARKER n token) = n
        ∧ ∃ rest, token = PrefixSpace_extract_from_token START_MARKER END_MARKER n token +:+ rest)
     ∧ (1 ≤ n ≤ len token →
        len (SuffixSpace_extract_from_token START_MARKER END_MARKER n token) = n
        ∧ ∃ front, token = front +:+ SuffixSpace_extract_from_token START_MARKER END_MARKER n token))
  ∧ ("quick"%string ≠ START_MARKER → "quick"%string ≠ END_MARKER →
     PrefixSpace_extract_from_token START_MARKER END_MARKER 3 "quick" = "qui"%string)
  ∧ ("ox"%string ≠ START_MARKER → "ox"%string ≠ END_MARKER →
     PrefixSpace_extract_from_token START_MARKER END_MARKER 3 "ox" = OUT_OF_RANGE_MARKER).
Proof.
  split_and!.
  - apply affix_marker.
  - intros Hs He. destruct (affix_ordinary n token Hs He) as [-> ->].
    split_and!.
    + intros Hshort. by destruct (Z.leb_spec n (len token)); [lia|].
    + intros [Hn0 Hn]. destruct (Z.leb_spec n (len token)); [|lia].
      unfold slice_to, clip. destruct (Z.ltb_spec n 0); [lia|].
      rewrite Z.min_l by done.
      destruct (substring_cut (Z.to_nat n) token) as [Hcut Hlen].
      { unfold len in Hn. lia. }
      split; [unfold len; rewrite Hlen; lia|]. eexists. by rewrite Hcut.
    + intros [Hn1 Hn]. destruct (Z.leb_spec n (len token)); [|lia].
      unfold slice_from, clip. destruct (Z.ltb_spec (- n) 0); [|lia].
      rewrite Z.max_l by lia. unfold len in *.
      set (k := Z.to_nat (- n + Z.of_nat (String.length token))).
      destruct (substring_cut k token) as [Hcut Hlen]; [lia|].
      split; [|eexists; by rewrite Hcut].
      apply (f_equal String.length) in Hcut.
      rewrite length_append, Hlen in Hcut. lia.
  - intros Hs He. by destruct (affix_ordinary 3 "quick" Hs He) as [-> _].
  - intros Hs He. by destruct (affix_ordinary 3 "ox" Hs He) as [-> _].
Qed.

End AffixProperties.

(** The transforms with the markers [<s>] and [</s>]. *)
Lemma affix_transforms_witness :
  PrefixSpace_extract_from_token "<s>" "</s>" 3 "quick" = "qui"%string
  ∧ PrefixSpace_extract_from_token "<s>" "</s>" 3 "ox" = OUT_OF_RANGE_MARKER
  ∧ PrefixSpace_extract_from_token "<s>" "</s>" 3 "<s>" = "<s>"%string
  ∧ len (SuffixSpace_extract_from_token "<s>" "</s>" 3 "quick") = 3.
Proof.
  pose proof (affix_transforms "<s>" "</s>" 3 "quick") as (_ & Hq & Hquick & _).
  pose proof (affix_transforms "<s>" "</s>" 3 "ox") as (_ & _ & _ & Hox).
  pose proof (affix_transforms "<s>" "</s>" 3 "<s>") as (Hm & _).
  split_and!.
  - by apply Hquick.
  - by apply Hox.
  - apply Hm. by left.
  - apply Hq; [done | done | ]. vm_compute. split; discriminate.
Defined.

(** The suffix transform with [n = 0] does not return the last 0
    characters: the token [ox] has at least 0 characters and is mapped to
    itself. *)
Lemma suffix_of_length_zero_is_whole_token :
  ¬ (∀ START_MARKER END_MARKER n token,
       token ≠ START_MARKER → token ≠ END_MARKER → n ≤ len token →
       len (SuffixSpace_extract_from_token START_MARKER END_MARKER n token) = n).
Proof.
  intros H. specialize (H "<s>" "</s>" 0 "ox")%string.
  vm_compute in H. by discriminate H.
Qed.

(** * Further properties of the counted spaces *)

Local Set Warnings "-clear-no-such-hyp".

Lemma counted_queried extracted min_count append_unknown fs :
  ∃ self,
    queried fs (FeatureSpace_init extracted min_count append_unknown) = Ok self
    ∧ same_answers (FeatureSpace_init extracted min_count append_unknown) self.
Proof. apply queried_same_answers. intros f. apply FeatureSpace_init_total. Qed.

(** X1. In a counted space, at construction and after any sequence of
    lookups, [index(feature(i)) == i] for every position [i] of the
    retained vocabulary.  The appended slot holds the unknown marker; its
    own index is that slot when the marker is not itself a retained value,
    and the earlier position of the marker when it is. *)
Theorem counted_index_of_feature extracted min_count append_unknown fs :
  ∃ self,
    queried fs (FeatureSpace_init extracted min_count append_unknown) = Ok self
    ∧ (∀ n v, vocabulary extracted min_count !! n = Some v →
         feature (Z.of_nat n) self = Ok v
         ∧ ∃ self', index v self = Ok (Z.of_nat n, self'))
    ∧ (append_unknown = true →
       feature (Z.of_nat (length (vocabulary extracted min_count))) self
       = Ok UNKNOWN_MARKER
       ∧ (UNKNOWN_MARKER ∉ vocabulary extracted min_count →
          ∃ self', index UNKNOWN_MARKER self
                   = Ok (Z.of_nat (length (vocabulary extracted min_count)), self'))
       ∧ (∀ j, vocabulary extracted min_count !! j = Some UNKNOWN_MARKER →
          (j < length (vocabulary extracted min_count))%nat
          ∧ ∃ self', index UNKNOWN_MARKER self = Ok (Z.of_nat j, self'))).
Proof.
  destruct (counted_queried extracted min_count append_unknown fs)
    as (self & Hq & Hspace & Hdef & Hres).
  exists self. split; [done|].
  assert (Hknown : ∀ n v, vocabulary extracted min_count !! n = Some v →
                          ∃ self', index v self = Ok (Z.of_nat n, self')).
  { intros n v Hn. destruct (index_resolve self v (Z.of_nat n)) as (self' & ? & _).
    - rewrite Hres. by apply FeatureSpace_init_known.
    - by exists self'. }
  split.
  - intros n v Hn. split; [|by apply Hknown].
    unfold feature. rewrite Hspace, FeatureSpace_init_space.
    apply list_getitem_nonneg. by apply lookup_app_l_Some.
  - intros ->. split_and!.
    + unfold feature. rewrite Hspace, FeatureSpace_init_space.
      apply list_getitem_nonneg. by rewrite list_lookup_middle.
    + intros Hu.
      destruct (index_resolve self UNKNOWN_MARKER
                  (Z.of_nat (length (vocabulary extracted min_count))))
        as (self' & ? & _); [|by exists self'].
      rewrite Hres. by rewrite FeatureSpace_init_unknown.
    + intros j Hj. split; [by eapply lookup_lt_Some | by apply Hknown].
Qed.

(** Without a threshold every extracted value is retained. *)
Lemma vocabulary_no_threshold extracted f :
  f ∈ vocabulary extracted None ↔ f ∈ extracted.
Proof. rewrite elem_of_vocabulary. split; [tauto|]. intros ?. split; [done|]. discriminate. Qed.

Lemma no_threshold_round_trip extracted append_unknown fs :
  ∃ self,
    queried fs (FeatureSpace_init extracted None append_unknown) = Ok self
    ∧ ∀ f, f ∈ extracted →
        ∃ n self', index f self = Ok (Z.of_nat n, self')
                   ∧ (n < length (vocabulary extracted None))%nat
                   ∧ feature (Z.of_nat n) self' = Ok f.
Proof.
  destruct (counted_queried extracted None append_unknown fs)
    as (self & Hq & Hspace & Hdef & Hres).
  exists self. split; [done|].
  intros f [n Hn]%vocabulary_no_threshold%list_elem_of_lookup.
  destruct (index_resolve self f (Z.of_nat n)) as (self' & Hi & Hs' & _).
  { rewrite Hres. by apply FeatureSpace_init_known. }
  exists n, self'. split_and!; [done | by eapply lookup_lt_Some |].
  unfold feature. rewrite Hs', Hspace, FeatureSpace_init_space.
  apply list_getitem_nonneg. by apply lookup_app_l_Some.
Qed.

Lemma elem_of_SupertagSpace_extract sentences tag :
  tag ∈ SupertagSpace_extract sentences ↔
  ∃ s : sentence, s ∈ sentences ∧ Some tag ∈ s.2.
Proof.
  unfold SupertagSpace_extract. rewrite list_elem_of_join. split.
  - intros (l & Htag & (s & -> & Hs)%list_elem_of_fmap).
    apply list_elem_of_omap in Htag as (o & Ho & Hid). simpl in Hid. subst o.
    by exists s.
  - intros (s & Hs & Htag). exists (omap id s.2). split.
    + apply list_elem_of_omap. by exists (Some tag).
    + apply list_elem_of_fmap. by exists s.
Qed.

Lemma elem_of_EmbeddingSpace_extract (g : string → string) sentences f :
  f ∈ EmbeddingSpace_extract (λ t, Some (g t)) sentences ↔
  ∃ (s : sentence) token, s ∈ sentences ∧ token ∈ s.1 ∧ f = g token.
Proof.
  unfold EmbeddingSpace_extract. rewrite list_elem_of_join. split.
  - intros (l & Hf & (s & -> & Hs)%list_elem_of_fmap).
    apply list_elem_of_omap in Hf as (token & Ht & [= <-]).
    by exists s, token.
  - intros (s & token & Hs & Ht & ->). exists (omap (λ t, Some (g t)) s.1). split.
    + apply list_elem_of_omap. by exists token.
    + apply list_elem_of_fmap. by exists s.
Qed.

(** X2. In the supertag space built without a threshold, at construction
    and after any sequence of lookups, every tag of the corpus that is not
    [None] has an index inside the space, and [feature] of that index is
    the tag. *)
Theorem supertag_corpus_round_trip sentences fs :
  ∃ self,
    queried fs (SupertagSpace_init sentences None) = Ok self
    ∧ ∀ (s : sentence) tag, s ∈ sentences → Some tag ∈ s.2 →
        ∃ i self', index tag self = Ok (i, self')
                   ∧ 0 ≤ i < size self
                   ∧ feature i self' = Ok tag.
Proof.
  unfold SupertagSpace_init.
  destruct (no_threshold_round_trip (SupertagSpace_extract sentences) false fs)
    as (self & Hq & Hall).
  destruct (counted_queried (SupertagSpace_extract sentences) None false fs)
    as (self0 & Hq0 & Hspace & _).
  rewrite Hq in Hq0. injection Hq0 as <-.
  exists self. split; [done|]. intros s tag Hs Htag.
  destruct (Hall tag) as (n & self' & Hi & Hn & Hf).
  { apply elem_of_SupertagSpace_extract. by exists s. }
  exists (Z.of_nat n), self'. split_and!; [done | lia | | done].
  unfold size. rewrite Hspace, FeatureSpace_init_space, length_app. simpl. lia.
Qed.

(** X3. In a prefix or suffix space built without a threshold, at
    construction and after any sequence of lookups, the feature of every
    token of the corpus has an index below the fallback slot, and [feature]
    of that index is the token's feature; the embedding size is 32. *)
Theorem affix_corpus_round_trip START_MARKER END_MARKER sentences n fs :
  (∃ self,
     queried fs (PrefixSpace_init START_MARKER END_MARKER sentences n None) = Ok self
     ∧ ∀ (s : sentence) token, s ∈ sentences → token ∈ s.1 →
         ∃ i self',
           index (PrefixSpace_extract_from_token START_MARKER END_MARKER n token) self
           = Ok (i, self')
           ∧ 0 ≤ i < size self - 1
           ∧ feature i self'
             = Ok (PrefixSpace_extract_from_token START_MARKER END_MARKER n token))
  ∧ (∃ self,
       queried fs (SuffixSpace_init START_MARKER END_MARKER sentences n None) = Ok self
       ∧ ∀ (s : sentence) token, s ∈ sentences → token ∈ s.1 →
           ∃ i self',
             index (SuffixSpace_extract_from_token START_MARKER END_MARKER n token) self
             = Ok (i, self')
             ∧ 0 ≤ i < size self - 1
             ∧ feature i self'
               = Ok (SuffixSpace_extract_from_token START_MARKER END_MARKER n token))
  ∧ embedding_size (PrefixSpace_init START_MARKER END_MARKER sentences n None) = 32%nat
  ∧ embedding_size (SuffixSpace_init START_MARKER END_MARKER sentences n None) = 32%nat.
Proof.
  assert (Hgen : ∀ g : string → string,
    ∃ self,
      queried fs (EmbeddingSpace_init (λ t, Some (g t)) 32 sentences None) = Ok self
      ∧ ∀ (s : sentence) token, s ∈ sentences → token ∈ s.1 →
          ∃ i self', index (g token) self = Ok (i, self')
                     ∧ 0 ≤ i < size self - 1
                     ∧ feature i self' = Ok (g token)).
  { intros g. unfold EmbeddingSpace_init. cbn [base].
    set (xs := EmbeddingSpace_extract (λ t, Some (g t)) sentences).
    destruct (no_threshold_round_trip xs true fs) as (self & Hq & Hall).
    destruct (counted_queried xs None true fs) as (self0 & Hq0 & Hspace & _).
    rewrite Hq in Hq0. injection Hq0 as <-.
    exists self. split; [done|]. intros s token Hs Ht.
    destruct (Hall (g token)) as (k & self' & Hi & Hk & Hf).
    { apply elem_of_EmbeddingSpace_extract. by exists s, token. }
    exists (Z.of_nat k), self'. split_and!; [done | lia | | done].
    unfold size. rewrite Hspace, FeatureSpace_init_space, length_app. simpl. lia. }
  split_and!; [apply Hgen | apply Hgen | done | done].
Qed.

Lemma filter_all {A} (p : A → bool) (l : list A) :
  (∀ x, x ∈ l → p x = true) → List.filter p l = l.
Proof.
  induction l as [|x l IH]; intros Hall; simpl; [done|].
  rewrite (Hall x) by (by left). f_equal. apply IH. intros y ?. apply Hall. by right.
Qed.

Lemma filter_sublist {A} (p q : A → bool) (l : list A) :
  (∀ x, x ∈ l → p x = true → q x = true) →
  List.filter p l `sublist_of` List.filter q l.
Proof.
  induction l as [|x l IH]; intros Himp; simpl; [done|].
  assert (IH' : List.filter p l `sublist_of` List.filter q l).
  { apply IH. intros y ?. apply Himp. by right. }
  destruct (p x) eqn:Hp.
  - rewrite (Himp x) by (done || by left). by apply sublist_skip.
  - destruct (q x); [by apply sublist_cons | done].
Qed.

Lemma Counter_get_key extracted f :
  f ∈ map fst (Counter extracted) → (1 ≤ counter_get (Counter extracted) f)%nat.
Proof.
  intros Hf. apply (proj1 (Counter_keys _ _)) in Hf.
  apply (proj2 (occurrences_pos _ _)) in Hf. rewrite Counter_get. lia.
Qed.

(** X4. A minimum count of 1 or less filters nothing: the space is the one
    built with no minimum count. *)
Theorem min_count_at_most_one extracted m append_unknown :
  m ≤ 1 →
  FeatureSpace_init extracted (Some m) append_unknown
  = FeatureSpace_init extracted None append_unknown.
Proof.
  intros Hm. unfold FeatureSpace_init.
  assert (retained (Some m) (Counter extracted)
          = retained None (Counter extracted)) as ->; [|done].
  unfold retained. rewrite !filter_all; [done | done |].
  intros f Hf%Counter_get_key. unfold meets. apply Z.leb_le. lia.
Qed.

Lemma min_count_at_most_one_witness :
  FeatureSpace_init ["N"; "NP"; "N"]%string (Some 1) true
  = FeatureSpace_init ["N"; "NP"; "N"]%string None true.
Proof. apply min_count_at_most_one. lia. Defined.

(** X5. Raising the minimum count only removes values: the vocabulary for
    the higher count is the vocabulary for the lower one with some values
    left out, in the same order, and both are cut out of the vocabulary
    built with no minimum count. *)
Theorem threshold_monotone extracted m m' :
  m ≤ m' →
  vocabulary extracted (Some m') `sublist_of` vocabulary extracted (Some m)
  ∧ vocabulary extracted (Some m) `sublist_of` vocabulary extracted None.
Proof.
  intros Hm. unfold vocabulary, retained. split; apply filter_sublist.
  - intros f _. unfold meets. rewrite !Z.leb_le. lia.
  - done.
Qed.

Lemma threshold_monotone_witness :
  vocabulary ["N"; "NP"; "N"; "S"; "NP"; "N"]%string (Some 3)
    `sublist_of` vocabulary ["N"; "NP"; "N"; "S"; "NP"; "N"]%string (Some 2)
  ∧ vocabulary ["N"; "NP"; "N"; "S"; "NP"; "N"]%string (Some 2)
      `sublist_of` vocabulary ["N"; "NP"; "N"; "S"; "NP"; "N"]%string None.
Proof. apply threshold_monotone. lia. Defined.

(** The keys of the dictionary built from [enumerate]. *)
Lemma dict_enumerate_dom (l : list string) (k : nat) (d : gmap string Z) :
  dom (foldl (λ d p, <[p.2 := Z.of_nat p.1]> d) d (enumerate_from k l))
  = list_to_set l ∪ dom d.
Proof.
  revert k d. induction l as [|x l IH]; intros k d; simpl.
  - by rewrite (left_id_L ∅ (∪)).
  - rewrite IH. simpl. rewrite dom_insert_L. set_solver.
Qed.

Lemma dict_of_enumerate_dom (l : list string) :
  dom (dict_of_enumerate l) = list_to_set l.
Proof.
  unfold dict_of_enumerate, enumerate. rewrite dict_enumerate_dom, dom_empty_L.
  by rewrite (right_id_L ∅ (∪)).
Qed.

Lemma index_dom f self i self' :
  index f self = Ok (i, self') →
  dom (items (ispace self')) = {[f]} ∪ dom (items (ispace self)).
Proof.
  unfold index, defaultdict_getitem.
  destruct (items (ispace self) !! f) as [v|] eqn:Hf; simpl.
  - intros [= <- <-]. simpl. apply elem_of_dom_2 in Hf. set_solver.
  - destruct (default_factory (ispace self)) as [v|]; [|done].
    simpl. intros [= <- <-]. simpl. by rewrite dom_insert_L.
Qed.

Lemma queried_dom fs self self' :
  queried fs self = Ok self' →
  dom (items (ispace self')) = list_to_set fs ∪ dom (items (ispace self)).
Proof.
  revert self. induction fs as [|f fs IH]; intros self; simpl.
  - intros [= <-]. by rewrite (left_id_L ∅ (∪)).
  - destruct (index f self) as [[i self1]|] eqn:Hi; [|done]. simpl.
    intros Hq. rewrite (IH _ Hq), (index_dom _ _ _ _ Hi). set_solver.
Qed.

(** X6. Lookups are remembered: after any sequence of lookups the keys
    stored in [ispace] are the retained values together with every value
    that was looked up, while the space and its size are those of the
    construction. *)
Theorem lookups_are_stored extracted min_count append_unknown fs :
  ∃ self,
    queried fs (FeatureSpace_init extracted min_count append_unknown) = Ok self
    ∧ dom (items (ispace self))
      = list_to_set fs ∪ list_to_set (vocabulary extracted min_count)
    ∧ space self
      = space (FeatureSpace_init extracted min_count append_unknown)
    ∧ size self = size (FeatureSpace_init extracted min_count append_unknown).
Proof.
  destruct (counted_queried extracted min_count append_unknown fs)
    as (self & Hq & Hspace & _).
  exists self. split_and!; [done | | done | by unfold size; rewrite Hspace].
  rewrite (queried_dom _ _ _ Hq). simpl. by rewrite dict_of_enumerate_dom.
Qed.

Lemma Counter_keys_prefix xs ys :
  map fst (Counter xs) `prefix_of` map fst (Counter (xs ++ ys)).
Proof.
  induction ys as [|y ys IH] using rev_ind; [by rewrite app_nil_r|].
  rewrite (assoc_L (++)), Counter_snoc, counter_keys_incr.
  case_decide; [done|]. by apply prefix_app_r.
Qed.

Lemma vocabulary_no_threshold_keys xs :
  vocabulary xs None = map fst (Counter xs).
Proof. unfold vocabulary, retained. by apply filter_all. Qed.

(** X7. Without a minimum count, a longer corpus only appends to the
    vocabulary: the vocabulary of a corpus is an initial segment of the
    vocabulary of any extension of it, so every value of the shorter corpus
    has the same index in both spaces. *)
Theorem vocabulary_grows_at_the_end xs ys append_unknown :
  vocabulary xs None `prefix_of` vocabulary (xs ++ ys) None
  ∧ ∀ v, v ∈ xs →
      ∃ i self1 self2,
        index v (FeatureSpace_init xs None append_unknown) = Ok (i, self1)
        ∧ index v (FeatureSpace_init (xs ++ ys) None append_unknown)
          = Ok (i, self2).
Proof.
  assert (Hpre : vocabulary xs None `prefix_of` vocabulary (xs ++ ys) None).
  { rewrite !vocabulary_no_threshold_keys. apply Counter_keys_prefix. }
  split; [done|].
  intros v [n Hn]%vocabulary_no_threshold%list_elem_of_lookup.
  destruct (index_resolve (FeatureSpace_init xs None append_unknown) v (Z.of_nat n))
    as (self1 & H1 & _); [by apply FeatureSpace_init_known|].
  destruct (index_resolve (FeatureSpace_init (xs ++ ys) None append_unknown) v
              (Z.of_nat n)) as (self2 & H2 & _).
  { apply FeatureSpace_init_known. by eapply prefix_lookup_Some. }
  by exists (Z.of_nat n), self1, self2.
Qed.

(** * Further properties of the pretrained loader *)

Lemma lower_ascii_idempotent c : lower_ascii (lower_ascii c) = lower_ascii c.
Proof. by destruct c as [[] [] [] [] [] [] [] []]. Qed.

Lemma lower_idempotent s : lower (lower s) = lower s.
Proof.
  induction s as [|c s IH]; simpl; [done|].
  by rewrite lower_ascii_idempotent, IH.
Qed.

Section LoaderProperties.

Context {F : Type} (float : string → option F).

Lemma floats_first_malformed good bad rest :
  (∀ s, s ∈ good → is_Some (float s)) →
  float bad = None →
  floats float (good ++ bad :: rest) = Raise (ValueError_float bad).
Proof.
  intros Hgood Hbad. induction good as [|s good IH]; simpl.
  - by rewrite Hbad.
  - destruct (Hgood s) as [x ->]; [by left|].
    rewrite IH; [done|]. intros s' ?. apply Hgood. by right.
Qed.

Lemma floats_Ok_all fields (e : list F) :
  floats float fields = Ok e → ∀ s, s ∈ fields → is_Some (float s).
Proof.
  revert e. induction fields as [|s fields IH]; intros e; simpl.
  - by intros _ s' ?%elem_of_nil.
  - destruct (float s) as [x|] eqn:Hs; [|done].
    destruct (floats float fields) as [xs|]; [|done].
    intros _ s' [->|?]%elem_of_cons; [by rewrite Hs | by eapply IH].
Qed.

(** A file of which more is read loads as far as it was read. *)
Lemma load_lines_app_Ok i pre post st st' :
  load_lines float i (pre ++ post) st = Ok st' →
  ∃ st1, load_lines float i pre st = Ok st1
         ∧ load_lines float (i + length pre) post st1 = Ok st'.
Proof.
  rewrite load_lines_app.
  destruct (load_lines float i pre st) as [st1|]; [|done]. by exists st1.
Qed.

(** The word of a line is new exactly when it is on no earlier line. *)
Lemma added_iff_earlier pre st word :
  load_lines float 0 pre loading_start = Ok st →
  lower word ∈ already_added st ↔
  ∃ p w fs, p ∈ pre ∧ split p = w :: fs ∧ lower w = lower word.
Proof.
  intros Hst.
  rewrite (wl_added _ (well_loaded_lines _ _ _ _ _ well_loaded_start Hst)).
  rewrite (load_lines_added _ _ _ _ _ _ well_loaded_start Hst).
  split; [|by right]. by intros [[]%elem_of_nil|?].
Qed.

(** X8. A line with no word on it (empty, or white space only) stops the
    load with [IndexError], wherever it stands after lines that load. *)
Theorem blank_line_raises pre line post (sp : PretrainedEmbeddingSpace F) :
  PretrainedEmbeddingSpace_init float pre = Ok sp →
  split line = [] →
  PretrainedEmbeddingSpace_init float (pre ++ line :: post) = Raise IndexError.
Proof.
  intros (st & Hst & _)%init_Ok Hsplit. apply init_Raise.
  rewrite load_lines_app, Hst. cbn [bind load_lines].
  unfold load_line. by rewrite Hsplit.
Qed.

(** X9. After lines that load, a line with a new word and a field that
    [float] rejects stops the load with the [ValueError] of [float] for the
    first such field, whatever the number of its fields. *)
Theorem malformed_float_raises pre line post word good bad rest
    (sp : PretrainedEmbeddingSpace F) :
  PretrainedEmbeddingSpace_init float pre = Ok sp →
  split line = word :: good ++ bad :: rest →
  (pre = [] → word = UNKNOWN_MARKER) →
  (∀ p w fs, p ∈ pre → split p = w :: fs → lower w ≠ lower word) →
  (∀ s, s ∈ good → is_Some (float s)) →
  float bad = None →
  PretrainedEmbeddingSpace_init float (pre ++ line :: post)
  = Raise (ValueError_float bad).
Proof.
  intros (st & Hst & _)%init_Ok Hsplit Hfirst Hnew Hgood Hbad. apply init_Raise.
  rewrite load_lines_app, Hst. cbn [bind load_lines].
  unfold load_line. rewrite Hsplit.
  assert ((bool_decide ((0 + length pre)%nat = 0%nat)
           && negb (bool_decide (word = UNKNOWN_MARKER))) = false) as ->.
  { destruct pre as [|p pre]; [|done].
    by rewrite (bool_decide_eq_true_2 (word = _)) by auto. }
  rewrite bool_decide_eq_false_2.
  - by rewrite floats_first_malformed.
  - intros (p & w & fs & ? & ? & ?)%(added_iff_earlier pre); [|done].
    by apply (Hnew p w fs).
Qed.

Lemma load_lines_words i lines st st' line :
  load_lines float i lines st = Ok st' →
  line ∈ lines → ∃ word fields, split line = word :: fields.
Proof.
  revert i st. induction lines as [|l lines IH]; intros i st; simpl.
  - by intros _ ?%elem_of_nil.
  - destruct (load_line float i l st) as [st1|] eqn:Hl; [|done]. simpl.
    intros Hrest [->|Hin]%elem_of_cons; [|by eapply IH].
    apply load_line_Ok in Hl as (word & fields & ? & _). by exists word, fields.
Qed.

Lemma first_line_marker first rest st :
  load_lines float 0 (first :: rest) loading_start = Ok st →
  ∃ fields, split first = UNKNOWN_MARKER :: fields
            ∧ loading_space st !! 0%nat = Some (lower UNKNOWN_MARKER).
Proof.
  cbn [load_lines].
  destruct (load_line float 0 first loading_start) as [st1|] eqn:Hl; [|done].
  cbn [bind]. intros (Hspace & _)%load_lines_grows.
  apply load_line_Ok in Hl
    as (w & fs & Hs & Hw & [[Hdup _]|(_ & e & _ & _ & ->)]).
  - by apply elem_of_empty in Hdup.
  - rewrite Hw in * by done. exists fs. split; [done|].
    eapply prefix_lookup_Some; [|exact Hspace]. reflexivity.
Qed.

Lemma loaded_words lines (sp : PretrainedEmbeddingSpace F) w :
  PretrainedEmbeddingSpace_init float lines = Ok sp →
  w ∈ space sp ↔
  ∃ line word fields,
    line ∈ lines ∧ split line = word :: fields ∧ lower word = w.
Proof.
  intros (st & Hst & ->)%init_Ok. simpl.
  rewrite (load_lines_added _ _ _ _ _ _ well_loaded_start Hst).
  split; [|by right]. by intros [[]%elem_of_nil|?].
Qed.

(** X10. In a loaded space the vocabulary holds exactly the lower-cased
    words of the lines of the file, each once, and the table of vectors has
    one entry per word; every line of the file has a word on it, and the
    word of the first line is the unknown marker. *)
Theorem loaded_vocabulary lines (sp : PretrainedEmbeddingSpace F) :
  PretrainedEmbeddingSpace_init float lines = Ok sp →
  NoDup (space sp)
  ∧ (∀ w, w ∈ space sp ↔
          ∃ line word fields,
            line ∈ lines ∧ split line = word :: fields ∧ lower word = w)
  ∧ length (embeddings sp) = length (space sp)
  ∧ (∀ line, line ∈ lines → ∃ word fields, split line = word :: fields)
  ∧ (∀ first rest, lines = first :: rest →
       ∃ fields, split first = UNKNOWN_MARKER :: fields).
Proof.
  intros Hsp. pose proof Hsp as (st & Hst & ->)%init_Ok. simpl.
  pose proof (well_loaded_lines _ _ _ _ _ well_loaded_start Hst) as Hwl.
  split_and!.
  - apply (wl_NoDup _ Hwl).
  - intros w. exact (loaded_words lines _ w Hsp).
  - apply (wl_length _ Hwl).
  - intros line. by eapply load_lines_words.
  - intros first rest ->.
    destruct (first_line_marker _ _ _ Hst) as (fields & ? & _). by exists fields.
Qed.

Lemma loaded_words_lower lines (sp : PretrainedEmbeddingSpace F) w :
  PretrainedEmbeddingSpace_init float lines = Ok sp →
  w ∈ space sp → lower w = w.
Proof.
  intros Hsp Hw.
  apply (loaded_words lines sp w Hsp) in Hw as (line & word & fields & _ & _ & <-).
  apply lower_idempotent.
Qed.

(** X11. In a space loaded from a file with at least one line, position 0
    holds the lower-cased unknown marker, which is not the marker itself;
    [embedding_size] is the number of fields after the word of the first
    line; and for a word that is not in the vocabulary, after any lookups,
    [feature(index(w))] is that lower-cased marker.  The empty file loads
    into the empty space with no [embedding_size], where [index(w)] is 0
    and [feature(0)] raises [IndexError]. *)
Theorem loaded_first_slot :
  (∀ first rest (sp : PretrainedEmbeddingSpace F),
     PretrainedEmbeddingSpace_init float (first :: rest) = Ok sp →
     ∃ fields,
       split first = UNKNOWN_MARKER :: fields
       ∧ space sp !! 0%nat = Some (lower UNKNOWN_MARKER)
       ∧ (UNKNOWN_MARKER ∉ space sp)
       ∧ pretrained_embedding_size sp = Some (length fields)
       ∧ ∀ fs w, w ∉ space sp →
           ∃ self self', queried fs sp = Ok self
                         ∧ index w self = Ok (0, self')
                         ∧ feature 0 self' = Ok (lower UNKNOWN_MARKER))
  ∧ (∃ sp : PretrainedEmbeddingSpace F,
       PretrainedEmbeddingSpace_init float [] = Ok sp
       ∧ size sp = 0
       ∧ pretrained_embedding_size sp = None
       ∧ ∀ w, ∃ self', index w sp = Ok (0, self')
                       ∧ feature 0 self' = Raise IndexError).
Proof.
  split.
  - intros first rest sp Hsp. pose proof Hsp as (st & Hst & Heq)%init_Ok.
    destruct (first_line_marker _ _ _ Hst) as (fields & Hsplit & H0).
    assert (Hsp0 : space sp !! 0%nat = Some (lower UNKNOWN_MARKER)) by by subst sp.
    exists fields. split_and!; [done | done | | |].
    + intros Hin%(loaded_words_lower _ _ _ Hsp). by vm_compute in Hin.
    + subst sp. simpl. by eapply first_line_dimension.
    + intros fs w Hw.
      destruct (index_after_queries fs sp w 0)
        as (self & Hq & _ & self' & Hi & (Hs' & _)).
      * intros g. by eapply pretrained_total.
      * by eapply pretrained_unknown.
      * exists self, self'. split_and!; [done | done |].
        unfold feature. rewrite Hs'. by apply (list_getitem_nonneg _ 0).
  - eexists. split; [reflexivity|]. split_and!; [done | done |].
    intros w. eexists. split; reflexivity.
Qed.

(** X12. A pretrained space is looked up by lower-cased words only: a word
    with an upper-case letter is never in the vocabulary, so its index is
    0; and a token whose lower-cased form is that of the word of some
    line of the file, passed through the transform of the word space, has
    the index of that word, [feature] of which is the lower-cased token. *)
Theorem word_space_lookup lines (sp : PretrainedEmbeddingSpace F) fs :
  PretrainedEmbeddingSpace_init float lines = Ok sp →
  ∃ self,
    queried fs sp = Ok self
    ∧ (∀ w, lower w ≠ w → ∃ self', index w self = Ok (0, self'))
    ∧ (∀ token line word fields,
         line ∈ lines → split line = word :: fields →
         lower token = lower word →
         ∃ n self',
           index (WordSpace_extract_from_token token) self = Ok (Z.of_nat n, self')
           ∧ space sp !! n = Some (lower token)
           ∧ feature (Z.of_nat n) self' = Ok (lower token)).
Proof.
  intros Hsp.
  destruct (queried_same_answers fs sp) as (self & Hq & Hspace & _ & Hres).
  { intros g. by eapply pretrained_total. }
  exists self. split; [done|]. split.
  - intros w Hw. destruct (index_resolve self w 0) as (self' & ? & _); [|by eauto].
    rewrite Hres. eapply pretrained_unknown; [done|].
    by intros Hin%(loaded_words_lower _ _ _ Hsp).
  - intros token line word fields Hline Hsplit Hlow.
    unfold WordSpace_extract_from_token.
    assert (lower token ∈ space sp) as [n Hn]%list_elem_of_lookup.
    { apply (loaded_words lines sp _ Hsp). by exists line, word, fields. }
    destruct (index_resolve self (lower token) (Z.of_nat n))
      as (self' & Hi & Hs' & _).
    { rewrite Hres. by eapply pretrained_known. }
    exists n, self'. split_and!; [done | done |].
    unfold feature. rewrite Hs', Hspace. by apply list_getitem_nonneg.
Qed.

Lemma load_line_mismatch i line st d a :
  load_line float i line st = Raise (ValueError_dimensions_mismatch d a) →
  loading_embedding_size st = Some d ∧ d ≠ a
  ∧ ∃ word fields, split line = word :: fields ∧ a = length fields.
Proof.
  unfold load_line. destruct (split line) as [|word fields]; [done|].
  destruct (bool_decide (i = 0%nat) && negb (bool_decide (word = UNKNOWN_MARKER)));
    [done|].
  case_bool_decide; [done|].
  destruct (floats float fields) as [e|] eqn:He; simpl.
  - destruct (loading_embedding_size st) as [d0|]; simpl; [|done].
    case_bool_decide as Hd; [|done]. intros [= <- <-].
    split_and!; [done | done |]. exists word, fields.
    by rewrite (floats_length _ _ _ He).
  - intros [= ->]. by apply floats_raises in He as (? & _ & ?).
Qed.

Lemma load_lines_mismatch i lines st d0 d a :
  loading_embedding_size st = Some d0 →
  load_lines float i lines st = Raise (ValueError_dimensions_mismatch d a) →
  d = d0 ∧ d ≠ a
  ∧ ∃ line word fields,
      line ∈ lines ∧ split line = word :: fields ∧ a = length fields.
Proof.
  revert i st. induction lines as [|l lines IH]; intros i st Hsize; simpl; [done|].
  destruct (load_line float i l st) as [st1|e] eqn:Hl; simpl.
  - intros Hrest. apply load_line_grows in Hl as (_ & _ & Hkeep).
    destruct (IH _ _ (Hkeep _ Hsize) Hrest)
      as (-> & ? & line & word & fields & ? & ? & ?).
    split_and!; [done | done |]. exists line, word, fields.
    split; [by right | done].
  - intros [= ->].
    apply load_line_mismatch in Hl as (Hd & ? & word & fields & ? & ?).
    rewrite Hsize in Hd. injection Hd as ->.
    split_and!; [done | done |]. exists l, word, fields.
    split; [by left | done].
Qed.

(** X13. When the load fails with a dimension mismatch, the expected
    dimensionality it reports is the number of fields after the word of
    the first line, and the other number, different from it, is the number
    of fields of some later line. *)
Theorem dimension_mismatch_reports lines d a :
  PretrainedEmbeddingSpace_init float lines
  = Raise (ValueError_dimensions_mismatch d a) →
  d ≠ a
  ∧ ∃ first rest word0 fields0 line word fields,
      lines = first :: rest
      ∧ split first = word0 :: fields0 ∧ d = length fields0
      ∧ line ∈ rest ∧ split line = word :: fields ∧ a = length fields.
Proof.
  intros Hr%init_Raise. destruct lines as [|first rest]; [done|].
  cbn [load_lines] in Hr.
  destruct (load_line float 0 first loading_start) as [st1|e] eqn:Hl;
    cbn [bind] in Hr.
  - assert (Hfirst : load_lines float 0 [first] loading_start = Ok st1).
    { cbn [load_lines]. by rewrite Hl. }
    destruct (first_line_marker _ _ _ Hfirst) as (fields0 & Hs0 & _).
    pose proof (first_line_dimension _ _ _ _ _ _ Hs0 Hfirst) as Hsize.
    destruct (load_lines_mismatch _ _ _ _ _ _ Hsize Hr)
      as (-> & ? & line & word & fields & ? & ? & ?).
    split; [done|].
    by exists first, rest, UNKNOWN_MARKER, fields0, line, word, fields.
  - injection Hr as ->. by apply load_line_mismatch in Hl as (? & _).
Qed.

Lemma accepted_loads lines pre post :
  accepted float lines → lines = pre ++ post →
  ∃ st, load_lines float 0 pre loading_start = Ok st.
Proof.
  intros Hacc. revert post.
  induction pre as [|line pre IH] using rev_ind; intros post Hlines.
  - by eexists.
  - rewrite <- (assoc_L (++)) in Hlines. simpl in Hlines.
    destruct (IH _ Hlines) as [st Hst].
    destruct (Hacc pre line post Hlines) as (word & fields & Hsplit & Hfirst & Hcase).
    rewrite load_lines_app, Hst. cbn [bind load_lines].
    destruct (decide (lower word ∈ already_added st)) as [Hdup|Hnew].
    + rewrite (load_line_duplicate _ _ _ _ word fields); [by eexists | done | | done].
      apply (added_iff_earlier pre) in Hdup as (p & _ & _ & Hp & _); [|done].
      destruct pre; [by apply elem_of_nil in Hp | simpl; lia].
    + destruct Hcase as [Hearlier|[Hfloats Hlen]].
      { exfalso. apply Hnew. by apply (added_iff_earlier pre). }
      destruct (floats_total _ _ Hfloats) as [e He].
      rewrite (load_line_new _ _ _ _ word fields e); [|done| |done|done].
      * destruct (loading_embedding_size st) as [d|] eqn:Hsize; [|by eexists].
        destruct pre as [|first pre']; [by injection Hst as <-|].
        destruct (first_line_marker _ _ _ Hst) as (fields0 & Hs0 & _).
        rewrite (first_line_dimension _ _ _ _ _ _ Hs0 Hst) in Hsize.
        injection Hsize as <-.
        rewrite (floats_length _ _ _ He), (Hlen _ _ _ _ Hlines Hs0).
        rewrite bool_decide_eq_false_2 by (intros H; by apply H). by eexists.
      * destruct pre; [right; by apply Hfirst | left; simpl; lia].
Qed.

(** X14. The loader accepts a file, returning a space, exactly when every
    line has a word on it, the word of the first line is the unknown
    marker, and every line whose lower-cased word is on no earlier line
    has only fields that [float] reads, as many as the first line has. *)
Theorem loads_iff_accepted lines :
  (∃ sp, PretrainedEmbeddingSpace_init float lines = Ok sp)
  ↔ accepted float lines.
Proof.
  split.
  - intros [sp (st & Hst & _)%init_Ok] pre line post ->.
    apply load_lines_app_Ok in Hst as (st1 & Hpre & Hrest).
    cbn [load_lines] in Hrest.
    destruct (load_line float (0 + length pre) line st1) as [st2|] eqn:Hl; [|done].
    cbn [bind] in Hrest.
    apply load_line_Ok in Hl
      as (word & fields & Hsplit & Hfirst & [[Hdup _]|(_ & e & He & Hsize & _)]).
    + exists word, fields. split_and!; [done | | left].
      * intros ->. by apply Hfirst.
      * by apply (added_iff_earlier pre st1 word Hpre).
    + exists word, fields. split_and!; [done | | right].
      * intros ->. by apply Hfirst.
      * split; [by eapply floats_Ok_all|].
        intros first rest word0 fields0 Hlines Hs0.
        rewrite <- (floats_length _ _ _ He).
        destruct pre as [|p pre]; simpl in Hlines; injection Hlines as <- <-.
        -- rewrite Hsplit in Hs0. injection Hs0 as <- <-.
           by apply (floats_length float).
        -- symmetry. apply Hsize. by eapply first_line_dimension.
  - intros Hacc. destruct (accepted_loads lines lines [] Hacc) as [st Hst].
    { by rewrite app_nil_r. }
    eexists. apply init_Ok. eauto.
Qed.

End LoaderProperties.

(** ** Concrete files for the properties above *)

Lemma blank_line_raises_witness :
  PretrainedEmbeddingSpace_init decimal
    ["*UNKNOWN* 0.1 0.2"; "  "; "Dog 0.3 0.4"]%string
  = Raise IndexError.
Proof.
  eapply (blank_line_raises decimal ["*UNKNOWN* 0.1 0.2"%string] "  "%string
            ["Dog 0.3 0.4"%string]).
  - vm_compute. reflexivity.
  - reflexivity.
Defined.

Lemma malformed_float_raises_witness :
  PretrainedEmbeddingSpace_init decimal
    ["*UNKNOWN* 0.1 0.2"; "Dog 0.3 x y 0.4"]%string
  = Raise (ValueError_float "x").
Proof.
  eapply (malformed_float_raises decimal ["*UNKNOWN* 0.1 0.2"%string]
            "Dog 0.3 x y 0.4"%string [] "Dog"%string ["0.3"%string]
            "x"%string ["y"; "0.4"]%string).
  - vm_compute. reflexivity.
  - reflexivity.
  - discriminate.
  - intros p w fs ->%list_elem_of_singleton [= <- _]. vm_compute. discriminate.
  - intros s ->%list_elem_of_singleton. vm_compute. eauto.
  - reflexivity.
Defined.

Lemma dog_space_loaded :
  PretrainedEmbeddingSpace_init decimal
    ["*UNKNOWN* 0.1 0.2"; "Dog 0.3 0.4"]%string = Ok dog_space.
Proof. vm_compute. reflexivity. Qed.

Lemma loaded_vocabulary_witness :
  NoDup (space dog_space)
  ∧ (∀ w, w ∈ space dog_space ↔
          ∃ line word fields,
            line ∈ ["*UNKNOWN* 0.1 0.2"; "Dog 0.3 0.4"]%string
            ∧ split line = word :: fields ∧ lower word = w)
  ∧ length (embeddings dog_space) = length (space dog_space)
  ∧ (∀ line, line ∈ ["*UNKNOWN* 0.1 0.2"; "Dog 0.3 0.4"]%string →
       ∃ word fields, split line = word :: fields)
  ∧ (∀ first rest,
       ["*UNKNOWN* 0.1 0.2"; "Dog 0.3 0.4"]%string = first :: rest →
       ∃ fields, split first = UNKNOWN_MARKER :: fields).
Proof. apply (loaded_vocabulary decimal). exact dog_space_loaded. Defined.

Lemma word_space_lookup_witness :
  ∃ self,
    queried ["Cat"; "DOG"]%string dog_space = Ok self
    ∧ (∀ w, lower w ≠ w → ∃ self', index w self = Ok (0, self'))
    ∧ (∀ token line word fields,
         line ∈ ["*UNKNOWN* 0.1 0.2"; "Dog 0.3 0.4"]%string →
         split line = word :: fields →
         lower token = lower word →
         ∃ n self',
           index (WordSpace_extract_from_token token) self = Ok (Z.of_nat n, self')
           ∧ space dog_space !! n = Some (lower token)
           ∧ feature (Z.of_nat n) self' = Ok (lower token)).
Proof. apply (word_space_lookup decimal). exact dog_space_loaded. Defined.

Lemma dimension_mismatch_reports_witness :
  2%nat ≠ 1%nat
  ∧ ∃ first rest word0 fields0 line word fields,
      ["*UNKNOWN* 0.1 0.2"; "Dog 0.3"]%string = first :: rest
      ∧ split first = word0 :: fields0 ∧ 2%nat = length fields0
      ∧ line ∈ rest ∧ split line = word :: fields ∧ 1%nat = length fields.
Proof. apply (dimension_mismatch_reports decimal). vm_compute. reflexivity. Defined.

(** * Further properties of the affix transforms *)

(** A string is its first [k] characters followed by the others, which
    are [length s - k]. *)
Lemma substring_cut_rest (k : nat) (s : string) :
  (k ≤ String.length s)%nat →
  String.length (String.substring k (String.length s - k) s)
  = (String.length s - k)%nat.
Proof.
  intros Hk. destruct (substring_cut k s Hk) as [Hcut Hlen].
  apply (f_equal String.length) in Hcut.
  rewrite length_append, Hlen in Hcut. lia.
Qed.

(** X15. With a length below 1 no token is too short.  For a negative [n]
    the prefix transform drops the last [-n] characters of a token that is
    not a boundary marker (all of them when the token has fewer); for
    [n <= 0] the suffix transform drops its first [-n] characters, so with
    [n = 0] it returns the whole token. *)
Theorem affix_nonpositive_length START_MARKER END_MARKER n token :
  token ≠ START_MARKER → token ≠ END_MARKER →
  (n < 0 →
   ∃ rest,
     token = PrefixSpace_extract_from_token START_MARKER END_MARKER n token +:+ rest
     ∧ len rest = Z.min (- n) (len token))
  ∧ (n ≤ 0 →
     ∃ front,
       token = front +:+ SuffixSpace_extract_from_token START_MARKER END_MARKER n token
       ∧ len front = Z.min (- n) (len token)).
Proof.
  intros Hs He.
  destruct (affix_ordinary START_MARKER END_MARKER n token Hs He) as [-> ->].
  unfold len. split.
  - intros Hn. destruct (Z.leb_spec n (Z.of_nat (String.length token))); [|lia].
    unfold slice_to, clip, len. destruct (Z.ltb_spec n 0); [|lia].
    set (k := Z.to_nat (Z.max (n + Z.of_nat (String.length token)) 0)).
    assert (Hk : (k ≤ String.length token)%nat) by lia.
    destruct (substring_cut k token Hk) as [Hcut _].
    eexists. split; [by rewrite Hcut|].
    rewrite (substring_cut_rest k token Hk). lia.
  - intros Hn. destruct (Z.leb_spec n (Z.of_nat (String.length token))); [|lia].
    unfold slice_from, clip, len. destruct (Z.ltb_spec (- n) 0); [lia|].
    set (k := Z.to_nat (Z.min (- n) (Z.of_nat (String.length token)))).
    assert (Hk : (k ≤ String.length token)%nat) by lia.
    destruct (substring_cut k token Hk) as [Hcut Hlen].
    eexists. split; [by rewrite Hcut|]. rewrite Hlen. lia.
Qed.

Lemma affix_nonpositive_length_witness :
  (∃ rest,
     "quick"%string
     = PrefixSpace_extract_from_token "<s>" "</s>" (-2) "quick" +:+ rest
     ∧ len rest = Z.min (- -2) (len "quick"))
  ∧ (∃ front,
       "quick"%string
       = front +:+ SuffixSpace_extract_from_token "<s>" "</s>" 0 "quick"
       ∧ len front = Z.min (- 0) (len "quick")).
Proof.
  split.
  - apply (affix_nonpositive_length "<s>" "</s>" (-2) "quick"); [done | done | lia].
  - apply (affix_nonpositive_length "<s>" "</s>" 0 "quick"); [done | done | lia].
Defined.

(** * Spaces with nothing retained *)

(** X16. Nothing is retained exactly when every extracted value occurs
    fewer times than the minimum count.  Then, at construction and after
    any sequence of lookups, the space with the fallback slot has size 1
    and sends every value to index 0, which holds the unknown marker, and
    the space without it has size 0 and sends every value to -1, of which
    [feature] raises [IndexError]. *)
Theorem nothing_retained extracted min_count :
  (vocabulary extracted min_count = [] ↔
   ∀ f, f ∈ extracted →
        ∃ m, min_count = Some m ∧ Z.of_nat (occurrences f extracted) < m)
  ∧ (vocabulary extracted min_count = [] →
     ∀ fs u,
       (∃ self self',
          queried fs (FeatureSpace_init extracted min_count true) = Ok self
          ∧ size self = 1
          ∧ index u self = Ok (0, self')
          ∧ feature 0 self' = Ok UNKNOWN_MARKER)
       ∧ (∃ self self',
            queried fs (FeatureSpace_init extracted min_count false) = Ok self
            ∧ size self = 0
            ∧ index u self = Ok (-1, self')
            ∧ feature (-1) self' = Raise IndexError)).
Proof.
  split.
  - split.
    + intros Hnil f Hf. destruct min_count as [m|].
      * exists m. split; [done|].
        destruct (decide (m ≤ Z.of_nat (occurrences f extracted))) as [Hm|]; [|lia].
        assert (f ∈ vocabulary extracted (Some m)) as Hin.
        { apply elem_of_vocabulary. split; [done|]. by intros ? [= <-]. }
        rewrite Hnil in Hin. by apply elem_of_nil in Hin.
      * apply vocabulary_no_threshold in Hf. rewrite Hnil in Hf.
        by apply elem_of_nil in Hf.
    + intros Hall. destruct (vocabulary extracted min_count) as [|x l] eqn:Hv; [done|].
      assert (x ∈ vocabulary extracted min_count) as Hx by (rewrite Hv; by left).
      apply elem_of_vocabulary in Hx as [Hin Hm].
      destruct (Hall x Hin) as (m & -> & Hlt). specialize (Hm m eq_refl). lia.
  - intros Hnil fs u.
    assert (Hu : u ∉ vocabulary extracted min_count).
    { rewrite Hnil. apply not_elem_of_nil. }
    split.
    + destruct (index_after_queries fs (FeatureSpace_init extracted min_count true) u 0)
        as (self & Hq & (Hspace & _) & self' & Hi & (Hspace' & _)).
      * apply FeatureSpace_init_total.
      * rewrite FeatureSpace_init_unknown, FeatureSpace_init_default by done.
        by rewrite Hnil.
      * exists self, self'. unfold size, feature.
        rewrite Hspace, Hspace', FeatureSpace_init_space, Hnil. by split_and!.
    + destruct (index_after_queries fs (FeatureSpace_init extracted min_count false) u (-1))
        as (self & Hq & (Hspace & _) & self' & Hi & (Hspace' & _)).
      * apply FeatureSpace_init_total.
      * by rewrite FeatureSpace_init_unknown, FeatureSpace_init_default by done.
      * exists self, self'. unfold size, feature.
        rewrite Hspace, Hspace', FeatureSpace_init_space, Hnil. by split_and!.
Qed.

Lemma nothing_retained_witness :
  (∃ self self',
     queried ["S"]%string
       (FeatureSpace_init ["N"; "NP"; "N"]%string (Some 3) true) = Ok self
     ∧ size self = 1
     ∧ index "NP" self = Ok (0, self')
     ∧ feature 0 self' = Ok UNKNOWN_MARKER)
  ∧ (∃ self self',
       queried ["S"]%string
         (FeatureSpace_init ["N"; "NP"; "N"]%string (Some 3) false) = Ok self
       ∧ size self = 0
       ∧ index "NP" self = Ok (-1, self')
       ∧ feature (-1) self' = Raise IndexError).
Proof.
  apply (proj2 (nothing_retained ["N"; "NP"; "N"]%string (Some 3))). reflexivity.
Defined.

(** * The suffix of length 0 *)

(** C9. The code at the failing input [n = 0]: [token[-0:]] is [token[0:]],
    so the suffix transform returns a token that is not a boundary marker
    whole, whatever its length, where its last 0 characters are the empty
    string; the prefix transform, [token[:0]], returns the empty string
    there. *)
Theorem suffix_length_zero_returns_token START_MARKER END_MARKER token :
  token ≠ START_MARKER → token ≠ END_MARKER →
  SuffixSpace_extract_from_token START_MARKER END_MARKER 0 token = token
  ∧ PrefixSpace_extract_from_token START_MARKER END_MARKER 0 token = EmptyString
  ∧ len (SuffixSpace_extract_from_token START_MARKER END_MARKER 0 token)
    = len token.
Proof.
  intros Hs He.
  destruct (affix_ordinary START_MARKER END_MARKER 0 token Hs He) as [-> ->].
  assert (Hlen : 0 ≤ len token) by (unfold len; lia).
  destruct (Z.leb_spec 0 (len token)); [|lia].
  assert (Hsuffix : slice_from token (- 0) = token).
  { unfold slice_from, clip. change (- 0) with 0. rewrite Z.ltb_irrefl.
    rewrite Z.min_l by done. change (Z.to_nat 0) with 0%nat.
    rewrite Nat.sub_0_r. apply substring_all. }
  rewrite Hsuffix. split_and!; [done | | done].
  unfold slice_to, clip. rewrite Z.ltb_irrefl, Z.min_l by done.
  by destruct token.
Qed.

Lemma suffix_length_zero_returns_token_witness :
  SuffixSpace_extract_from_token "<s>" "</s>" 0 "ox" = "ox"%string
  ∧ PrefixSpace_extract_from_token "<s>" "</s>" 0 "ox" = EmptyString
  ∧ len (SuffixSpace_extract_from_token "<s>" "</s>" 0 "ox") = len "ox".
Proof. by apply (suffix_length_zero_returns_token "<s>" "</s>" "ox"). Defined.
